(** * Job matching: skill normalisation, scoring, dispatch and ranking

    A shallow embedding of [job_match_two.py].

    Modelling conventions:
    - a Python [str] is a [string]; a character is a code point below 256,
      and [isspace] and [lower_char] follow Python's [str.isspace] and
      [str.lower] on that range;
    - a Python [set] of strings is a [gset string]; the order in which a
      set is iterated is not fixed by the language, so every function that
      iterates one takes the iteration order as an argument;
    - a Python [int] is a [Z];
    - a Python [float] is modelled twice. In the pipeline the percent is
      the exact rational [Qc] that the double approximates, which is what
      the order and the bounds of the percents are stated on; module [F64]
      computes [match_skills] on IEEE binary64 numbers, operation by
      operation, which is what the returned value itself is stated on;
    - an operation that can raise returns an [option], [None] standing for
      the raised exception. *)

From Stdlib Require Import ZArith QArith Qcanon Ascii String Sorted.
From Stdlib Require Import Uint63 PrimFloat.
From stdpp Require Import base decidable option numbers list strings gmap sorting lexico.

#[local] Set Warnings "-clear-no-such-hyp".

Local Open Scope Z_scope.

(** ** Python string primitives *)

Module PyStr.

(** [str.isspace] on one character: TAB..CR, FS..US, space, NEL, NBSP. *)
Definition isspace (c : ascii) : bool :=
  let n := N_of_ascii c in
  (((9 <=? n) && (n <=? 13)) || ((28 <=? n) && (n <=? 32))
   || (n =? 133) || (n =? 160))%N.

(** [str.lower] on one character: A..Z and the Latin-1 capitals. *)
Definition lower_char (c : ascii) : ascii :=
  let n := N_of_ascii c in
  if (((65 <=? n) && (n <=? 90))
      || ((192 <=? n) && (n <=? 222) && negb (n =? 215)))%N
  then ascii_of_N (n + 32) else c.

(** [s.lower()] *)
Fixpoint lower (s : string) : string :=
  match s with
  | EmptyString => EmptyString
  | String c s' => String (lower_char c) (lower s')
  end.

(** [s.lstrip()] *)
Fixpoint lstrip (s : string) : string :=
  match s with
  | EmptyString => EmptyString
  | String c s' => if isspace c then lstrip s' else s
  end.

(** [s.rstrip()] *)
Fixpoint rstrip (s : string) : string :=
  match s with
  | EmptyString => EmptyString
  | String c s' =>
      match rstrip s' with
      | EmptyString => if isspace c then EmptyString else String c EmptyString
      | r => String c r
      end
  end.

(** [s.strip()] *)
Definition strip (s : string) : string := rstrip (lstrip s).

(** [s.split(sep)] for a one-character separator: never the empty list. *)
Fixpoint split (sep : ascii) (s : string) : list string :=
  match s with
  | EmptyString => [EmptyString]
  | String c s' =>
      if Ascii.eqb c sep then EmptyString :: split sep s'
      else match split sep s' with
           | [] => [String c EmptyString]
           | p :: ps => String c p :: ps
           end
  end.

(** [sep.join(l)] *)
Fixpoint join (sep : string) (l : list string) : string :=
  match l with
  | [] => EmptyString
  | [x] => x
  | x :: l' => (x ++ sep ++ join sep l')%string
  end.

(** [c in s] *)
Fixpoint contains (c : ascii) (s : string) : bool :=
  match s with
  | EmptyString => false
  | String d s' => Ascii.eqb d c || contains c s'
  end.

(** The separator of the skills column. *)
Definition comma : ascii := ","%char.

End PyStr.

(** ** Python list primitives *)

Section py_sorted.
Context {A K : Type} (key : A → K) (lt : K → K → bool).

(** [x] goes in front of the first element whose key is not below its
    own, hence in front of the elements with an equal key. *)
Fixpoint sorted_insert (x : A) (l : list A) : list A :=
  match l with
  | [] => [x]
  | y :: l' => if lt (key y) (key x) then y :: sorted_insert x l' else x :: l
  end.

(** [sorted(l, key=key)]: the stable sort, which compares keys with [<]
    only. Each element is inserted in front of the sorted rest of the
    list, so elements with equal keys keep their input order. *)
Fixpoint sorted (l : list A) : list A :=
  match l with
  | [] => []
  | x :: l' => sorted_insert x (sorted l')
  end.
End py_sorted.

(** ** Entities *)

(** [set(skill.strip().lower() for skill in raw.split(','))], the
    expression shared by both constructors. *)
Definition parse_skills (raw : string) : gset string :=
  list_to_set ((λ skill, PyStr.lower (PyStr.strip skill)) <$> PyStr.split PyStr.comma raw).

Module JobSeeker.
Record t := mk { id : Z; name : string; skills : gset string }.

(** [JobSeeker.__init__] *)
Definition init (id : Z) (name skills : string) : t :=
  {| id := id; name := name; skills := parse_skills skills |}.
End JobSeeker.

Module Job.
Record t := mk { id : Z; title : string; required_skills : gset string }.

(** [Job.__init__] *)
Definition init (id : Z) (title required_skills : string) : t :=
  {| id := id; title := title; required_skills := parse_skills required_skills |}.
End Job.

(** ** Scoring *)

(** [len(s)] of a set. *)
Definition len (s : gset string) : Z := Z.of_nat (size s).

(** [a / b] on integers, as the exact quotient that the double of Python
    approximates ([F64.py_truediv] is the double): raises
    [ZeroDivisionError] when [b] is zero. *)
Definition py_truediv (a b : Z) : option Qc :=
  if decide (b = 0) then None else Some (Qc_of_Z a / Qc_of_Z b)%Qc.

(** [match_skills], the percent in exact arithmetic ([F64.match_skills]
    is the same function on doubles). *)
Definition match_skills (js_skills job_skills : gset string) : option (Z * Qc) :=
  let matching_skills := js_skills ∩ job_skills in
  let match_count := len matching_skills in
  let total_required_skills := len job_skills in
  match_percent ←
    (if decide (total_required_skills > 0)
     then q ← py_truediv match_count total_required_skills; Some (q * Qc_of_Z 100)%Qc
     else Some (Qc_of_Z 0));
  Some (match_count, match_percent).

(** ** Scoring on doubles *)

(** A Python number: the percent of [match_skills] is the [int] 0 on one
    branch and a [float] on the other. *)
Inductive PyNumber :=
  | PyInt (n : Z)
  | PyFloat (x : float).

Module F64.

(** The double of an integer; exact below 2^53, which bounds the size of
    any set that fits in memory. *)
Definition of_Z (n : Z) : float := PrimFloat.of_uint63 (Uint63.of_Z n).

(** [a / b] on integers: the correctly rounded quotient, or
    [ZeroDivisionError] when [b] is zero. *)
Definition py_truediv (a b : Z) : option float :=
  if decide (b = 0) then None else Some (PrimFloat.div (of_Z a) (of_Z b)).

(** [match_skills], the quotient and the product each rounded to a
    double, in the order of the source. *)
Definition match_skills (js_skills job_skills : gset string)
    : option (Z * PyNumber) :=
  let matching_skills := js_skills ∩ job_skills in
  let match_count := len matching_skills in
  let total_required_skills := len job_skills in
  match_percent ←
    (if decide (total_required_skills > 0)
     then q ← py_truediv match_count total_required_skills;
          Some (PyFloat (PrimFloat.mul q 100%float))
     else Some (PyInt 0));
  Some (match_count, match_percent).

(** The percent as the specification writes it, [100.0 * count / total],
    evaluated from left to right on doubles. *)
Definition spec_percent (count total : Z) : float :=
  PrimFloat.div (PrimFloat.mul 100%float (of_Z count)) (of_Z total).

End F64.

(** ** Storage rows and recommendations *)

(** A row of table [jobseekers], as the dictionary [dict(js)]. *)
Module SeekerRow.
Record t := mk { id : Z; name : string; skills : string }.
End SeekerRow.

(** A row of table [jobs], as the dictionary [dict(job)]. *)
Module JobRow.
Record t := mk { id : Z; title : string; required_skills : string }.
End JobRow.

(** The connection: the contents of the two tables. *)
Record Database := mkDatabase {
  jobseekers_table : list SeekerRow.t;
  jobs_table : list JobRow.t
}.

(** The dictionary built by [process_recommendations]. *)
Record Recommendation := mkRecommendation {
  jobseeker_id : Z;
  jobseeker_name : string;
  job_id : Z;
  job_title : string;
  matching_skill_count : Z;
  matching_skill_percent : Qc
}.

(** [",".join(skills)] with the set iterated in order [order]. *)
Definition render_skills (order : list string) : string :=
  PyStr.join "," order.

(** [set(row['skills'].split(','))], as [process_recommendations] reads a
    stored column back. *)
Definition stored_skills (column : string) : gset string :=
  list_to_set (PyStr.split PyStr.comma column).

(** An id that the [INTEGER] column can hold: a signed integer of 64
    bits. *)
Definition int64 (n : Z) : Prop := - 2 ^ 63 ≤ n < 2 ^ 63.

Global Instance int64_dec n : Decision (int64 n).
Proof. unfold int64. apply _. Defined.

(** [insert_data]: [iter] gives the iteration order of each skill set.
    An id outside 64 bits raises [OverflowError] and a primary key that is
    already present raises [IntegrityError]; either way the transaction is
    rolled back. A table keyed by [INTEGER PRIMARY KEY] is walked in
    ascending order of id by a [SELECT] without [ORDER BY], so the tables
    are kept in that order. *)
Definition insert_data (iter : gset string → list string) (conn : Database)
    (jobseekers : list JobSeeker.t) (jobs : list Job.t) : option Database :=
  let seeker_rows :=
    jobseekers_table conn ++
    ((λ js, SeekerRow.mk (JobSeeker.id js) (JobSeeker.name js)
              (render_skills (iter (JobSeeker.skills js)))) <$> jobseekers) in
  let job_rows :=
    jobs_table conn ++
    ((λ job, JobRow.mk (Job.id job) (Job.title job)
               (render_skills (iter (Job.required_skills job)))) <$> jobs) in
  if decide (Forall int64 (JobSeeker.id <$> jobseekers) ∧
             Forall int64 (Job.id <$> jobs) ∧
             NoDup (SeekerRow.id <$> seeker_rows) ∧
             NoDup (JobRow.id <$> job_rows))
  then Some (mkDatabase (sorted SeekerRow.id Z.ltb seeker_rows)
                        (sorted JobRow.id Z.ltb job_rows))
  else None.

(** ** Recommendation builder *)

(** One round of the loop of [process_recommendations]: [acc] is the list
    built so far, or the exception raised by an earlier round. *)
Definition process_job (js_data : SeekerRow.t) (js_skills : gset string)
    (acc : option (list Recommendation)) (job : JobRow.t)
    : option (list Recommendation) :=
  recommendations ← acc;
  let job_skills := stored_skills (JobRow.required_skills job) in
  '(match_count, match_percent) ← match_skills js_skills job_skills;
  Some (recommendations ++
        [ {| jobseeker_id := SeekerRow.id js_data;
             jobseeker_name := SeekerRow.name js_data;
             job_id := JobRow.id job;
             job_title := JobRow.title job;
             matching_skill_count := match_count;
             matching_skill_percent := match_percent |} ]).

(** [process_recommendations]: the loop appends one dictionary per job. *)
Definition process_recommendations (js_data : SeekerRow.t)
    (job_data : list JobRow.t) : option (list Recommendation) :=
  let js_skills := stored_skills (SeekerRow.skills js_data) in
  foldl (process_job js_data js_skills) (Some []) job_data.

(** The recommendation of one (seeker, job) pair in closed form: what one
    round of the loop of [process_recommendations] appends. *)
Definition pair_recommendation (js_data : SeekerRow.t) (job : JobRow.t)
    : Recommendation :=
  let js_skills := stored_skills (SeekerRow.skills js_data) in
  let job_skills := stored_skills (JobRow.required_skills job) in
  {| jobseeker_id := SeekerRow.id js_data;
     jobseeker_name := SeekerRow.name js_data;
     job_id := JobRow.id job;
     job_title := JobRow.title job;
     matching_skill_count := len (js_skills ∩ job_skills);
     matching_skill_percent :=
       if decide (len job_skills > 0)
       then (Qc_of_Z (len (js_skills ∩ job_skills)) / Qc_of_Z (len job_skills)
             * Qc_of_Z 100)%Qc
       else Qc_of_Z 0 |}.

(** ** Worker pool *)

(** A worker finishes task [i] of the pool: the outcome of [func] on the
    [i]-th argument tuple goes to slot [i]. *)
Definition finish {A B C} (func : A → B → option C) (iterable : list (A * B))
    (slots : list (option (option C))) (i : nat) : list (option (option C)) :=
  match iterable !! i with
  | Some (a, b) => <[i := Some (func a b)]> slots
  | None => slots
  end.

(** [Pool.starmap(func, iterable)]. Task [i] applies [func] to the [i]-th
    argument tuple and stores the outcome in slot [i]; [sched] is the
    order in which the workers finish the tasks. The call returns after
    every task has finished, reading the slots in index order; an
    exception raised by a task is raised again by the call. *)
Definition Pool_starmap {A B C} (sched : list nat) (func : A → B → option C)
    (iterable : list (A * B)) : option (list C) :=
  let slots :=
    foldl (finish func iterable) (replicate (length iterable) None) sched in
  outcomes ← mapM id slots;
  mapM id outcomes.

(** ** Ranking *)

(** [<] on the key tuples: the first position where the tuples differ
    decides. *)
Definition tuple_lt (a b : Z * Qc * Z) : bool :=
  let '(a1, a2, a3) := a in
  let '(b1, b2, b3) := b in
  if decide (a1 = b1) then
    if decide (a2 = b2) then bool_decide (a3 < b3)
    else bool_decide (a2 < b2)%Qc
  else bool_decide (a1 < b1).

(** [x] may stand in front of [y] in a list sorted on [key]: the key of
    [y] is not below the key of [x] in the order [R]. *)
Definition key_le {A K} (key : A → K) (R : relation K) (x y : A) : Prop :=
  ¬ R (key y) (key x).

(** [lambda x: (x['jobseeker_id'], -x['matching_skill_percent'], x['job_id'])] *)
Definition sort_key (x : Recommendation) : Z * Qc * Z :=
  (jobseeker_id x, (- matching_skill_percent x)%Qc, job_id x).

(** The order on the second component of the key tuples. *)
Global Instance Qc_lexico : Lexico Qc := Qclt.

(** [x] may stand in front of [y] in the ranking of the specification:
    seeker id ascending, then percent descending, then job id ascending. *)
Definition ranked_before (x y : Recommendation) : Prop :=
  jobseeker_id x < jobseeker_id y ∨
  (jobseeker_id x = jobseeker_id y ∧
   ((matching_skill_percent y < matching_skill_percent x)%Qc ∨
    (matching_skill_percent x = matching_skill_percent y ∧
     job_id x ≤ job_id y))).

(** ** Dispatch *)

(** [generate_recommendation_parallel]; [sched] is the order in which the
    pool finishes its tasks. *)
Definition generate_recommendation_parallel (sched : list nat)
    (conn : Database) : option (list Recommendation) :=
  let jobseekers := jobseekers_table conn in
  let jobs := jobs_table conn in
  results ← Pool_starmap sched process_recommendations
               ((λ js, (js, jobs)) <$> jobseekers);
  let recommendations := concat results in
  let sorted_recommendations := sorted sort_key tuple_lt recommendations in
  Some sorted_recommendations.

(** The Parallel Dispatcher of the specification: the pool call and the
    flattening of [generate_recommendation_parallel], before the sort. *)
Definition dispatch (sched : list nat) (conn : Database)
    : option (list Recommendation) :=
  let jobseekers := jobseekers_table conn in
  let jobs := jobs_table conn in
  results ← Pool_starmap sched process_recommendations
               ((λ js, (js, jobs)) <$> jobseekers);
  Some (concat results).

(** The cross product of the specification: one recommendation for each
    pair, seeker by seeker. *)
Definition all_pairs (jobseekers : list SeekerRow.t) (jobs : list JobRow.t)
    : list Recommendation :=
  concat ((λ js, pair_recommendation js <$> jobs) <$> jobseekers).

(** The sequential fallback of the specification: the pool replaced by a
    plain map of [process_recommendations] over the seeker list, then the
    same flattening and sort. *)
Definition generate_recommendation_sequential
    (conn : Database) : option (list Recommendation) :=
  let jobseekers := jobseekers_table conn in
  let jobs := jobs_table conn in
  results ← mapM (λ js, process_recommendations js jobs) jobseekers;
  Some (sorted sort_key tuple_lt (concat results)).

(** The fields of a recommendation in the order of the report, the
    percent as a fraction in lowest terms. *)
Definition fields (r : Recommendation) : Z * string * Z * string * Z * Q :=
  (jobseeker_id r, jobseeker_name r, job_id r, job_title r,
   matching_skill_count r, this (matching_skill_percent r)).

(** ** Sample data *)

(** Two seekers and three jobs as the storage layer holds them; jobs 2
    and 3 tie for each seeker. *)
Definition sample_conn : Database :=
  {| jobseekers_table :=
       [ SeekerRow.mk 2 "Bob" "python,sql";
         SeekerRow.mk 1 "Alice" "ruby,sql,problem solving" ];
     jobs_table :=
       [ JobRow.mk 3 "Data Analyst" "sql,excel";
         JobRow.mk 1 "Ruby Developer" "ruby,sql,problem solving";
         JobRow.mk 2 "Database Admin" "sql,linux" ] |}.

(** The same tables, listed in another order. *)
Definition sample_conn_shuffled : Database :=
  {| jobseekers_table :=
       [ SeekerRow.mk 1 "Alice" "ruby,sql,problem solving";
         SeekerRow.mk 2 "Bob" "python,sql" ];
     jobs_table :=
       [ JobRow.mk 1 "Ruby Developer" "ruby,sql,problem solving";
         JobRow.mk 3 "Data Analyst" "sql,excel";
         JobRow.mk 2 "Database Admin" "sql,linux" ] |}.

(** ** Entities through the storage layer *)

(** [iter] lists every set in some order, each element once: what the
    iteration of a Python set does. *)
Definition iteration_order (iter : gset string → list string) : Prop :=
  ∀ X, iter X ≡ₚ elements X.

(** The row that [insert_data] writes for a seeker. *)
Definition seeker_row (iter : gset string → list string) (js : JobSeeker.t)
    : SeekerRow.t :=
  SeekerRow.mk (JobSeeker.id js) (JobSeeker.name js)
    (render_skills (iter (JobSeeker.skills js))).

(** The row that [insert_data] writes for a job. *)
Definition job_row (iter : gset string → list string) (job : Job.t)
    : JobRow.t :=
  JobRow.mk (Job.id job) (Job.title job)
    (render_skills (iter (Job.required_skills job))).

(** The object came out of the constructor of its class. *)
Definition seeker_constructed (js : JobSeeker.t) : Prop :=
  ∃ id name skills, js = JobSeeker.init id name skills.

Definition job_constructed (job : Job.t) : Prop :=
  ∃ id title required_skills, job = Job.init id title required_skills.

(** The recommendation of a seeker object and a job object, scored on the
    sets that the constructors built. *)
Definition entity_recommendation (js : JobSeeker.t) (job : Job.t)
    : Recommendation :=
  let js_skills := JobSeeker.skills js in
  let job_skills := Job.required_skills job in
  {| jobseeker_id := JobSeeker.id js;
     jobseeker_name := JobSeeker.name js;
     job_id := Job.id job;
     job_title := Job.title job;
     matching_skill_count := len (js_skills ∩ job_skills);
     matching_skill_percent :=
       if decide (len job_skills > 0)
       then (Qc_of_Z (len (js_skills ∩ job_skills)) / Qc_of_Z (len job_skills)
             * Qc_of_Z 100)%Qc
       else Qc_of_Z 0 |}.

Definition entity_pairs (jobseekers : list JobSeeker.t) (jobs : list Job.t)
    : list Recommendation :=
  concat ((λ js, entity_recommendation js <$> jobs) <$> jobseekers).

(** The two ids of a recommendation. *)
Definition pair_ids (r : Recommendation) : Z * Z :=
  (jobseeker_id r, job_id r).

(** Objects as [read_csv] builds them from two small files. *)
Definition sample_seekers : list JobSeeker.t :=
  [ JobSeeker.init 2 "Bob" "Python, SQL";
    JobSeeker.init 1 "Alice" "Ruby, SQL, Problem Solving" ].

Definition sample_jobs : list Job.t :=
  [ Job.init 3 "Data Analyst" "SQL, Excel";
    Job.init 1 "Ruby Developer" "Ruby, SQL, Problem Solving" ].

(** The reverse of the order of [elements]: another iteration order. *)
Definition elements_rev (X : gset string) : list string :=
  reverse (elements X).

(** * Properties *)

(** ** Strings *)

Module PyStrFacts.
Import PyStr.

Lemma isspace_lower_char c : isspace (lower_char c) = isspace c.
Proof. by destruct c as [[] [] [] [] [] [] [] []]. Qed.

Lemma lower_char_idemp c : lower_char (lower_char c) = lower_char c.
Proof. by destruct c as [[] [] [] [] [] [] [] []]. Qed.

Lemma lower_char_comma c : Ascii.eqb (lower_char c) comma = Ascii.eqb c comma.
Proof. by destruct c as [[] [] [] [] [] [] [] []]. Qed.

Lemma lower_idemp s : lower (lower s) = lower s.
Proof. induction s as [|c s IH]; simpl; [done|]. by rewrite lower_char_idemp, IH. Qed.

Lemma lstrip_lower s : lstrip (lower s) = lower (lstrip s).
Proof.
  induction s as [|c s IH]; simpl; [done|].
  rewrite isspace_lower_char. by destruct (isspace c).
Qed.

Lemma rstrip_lower s : rstrip (lower s) = lower (rstrip s).
Proof.
  induction s as [|c s IH]; simpl; [done|].
  rewrite IH, isspace_lower_char.
  destruct (rstrip s); simpl; [by destruct (isspace c)|done].
Qed.

Lemma strip_lower s : strip (lower s) = lower (strip s).
Proof. unfold strip. by rewrite lstrip_lower, rstrip_lower. Qed.

Lemma rstrip_idemp s : rstrip (rstrip s) = rstrip s.
Proof.
  induction s as [|c s IH]; simpl; [done|].
  destruct (rstrip s) as [|d r] eqn:Hr.
  - destruct (isspace c) eqn:Hc; simpl; [done|]. by rewrite Hc.
  - change (rstrip (String c (String d r))) with
      (match rstrip (String d r) with
       | EmptyString => if isspace c then EmptyString else String c EmptyString
       | r' => String c r'
       end).
    by rewrite IH.
Qed.

Lemma length_lstrip s : (String.length (lstrip s) ≤ String.length s)%nat.
Proof. induction s as [|c s IH]; simpl; [done|]. destruct (isspace c); simpl; lia. Qed.

Lemma lstrip_rstrip s : lstrip s = s → lstrip (rstrip s) = rstrip s.
Proof.
  destruct s as [|c s]; simpl; [done|].
  destruct (isspace c) eqn:Hc.
  - intros Hs. pose proof (length_lstrip s) as Hlen.
    rewrite Hs in Hlen. simpl in Hlen. lia.
  - intros _. destruct (rstrip s); simpl; by rewrite Hc.
Qed.

Lemma lstrip_idemp s : lstrip (lstrip s) = lstrip s.
Proof.
  induction s as [|c s IH]; simpl; [done|].
  destruct (isspace c) eqn:Hc; [done|]. simpl. by rewrite Hc.
Qed.

Lemma strip_idemp s : strip (strip s) = strip s.
Proof.
  unfold strip. rewrite lstrip_rstrip by apply lstrip_idemp. apply rstrip_idemp.
Qed.

(** A trimmed and lowercased piece is a fixed point of trimming and
    lowercasing. *)
Lemma normalize_idemp s : lower (strip (lower (strip s))) = lower (strip s).
Proof. by rewrite strip_lower, strip_idemp, lower_idemp. Qed.

Lemma contains_lower_comma s : contains comma (lower s) = contains comma s.
Proof. induction s as [|c s IH]; simpl; [done|]. by rewrite lower_char_comma, IH. Qed.

Lemma contains_lstrip c s : contains c s = false → contains c (lstrip s) = false.
Proof.
  induction s as [|d s IH]; simpl; [done|].
  intros [? ?]%orb_false_iff. destruct (isspace d); simpl; [auto|].
  apply orb_false_iff; auto.
Qed.

Lemma contains_rstrip c s : contains c s = false → contains c (rstrip s) = false.
Proof.
  induction s as [|d s IH]; simpl; [done|].
  intros [Hd Hs]%orb_false_iff. specialize (IH Hs).
  destruct (rstrip s); simpl in *.
  - destruct (isspace d); simpl; [done|]. by rewrite Hd.
  - by rewrite Hd, IH.
Qed.

Lemma contains_strip c s : contains c s = false → contains c (strip s) = false.
Proof. intros. by apply contains_rstrip, contains_lstrip. Qed.

Lemma split_nonempty sep s : split sep s ≠ [].
Proof.
  destruct s as [|c s]; simpl; [done|].
  destruct (Ascii.eqb c sep); [done|]. by destruct (split sep s).
Qed.

(** No piece of a split contains the separator. *)
Lemma split_pieces sep s : Forall (λ p, contains sep p = false) (split sep s).
Proof.
  induction s as [|c s IH]; simpl; [by repeat constructor|].
  destruct (Ascii.eqb c sep) eqn:Hc; [by constructor|].
  destruct (split sep s) as [|p ps]; simpl.
  - repeat constructor. simpl. by rewrite Hc.
  - inv IH. constructor; [|done]. simpl. by rewrite Hc.
Qed.

Lemma split_no_sep sep s : contains sep s = false → split sep s = [s].
Proof.
  induction s as [|c s IH]; simpl; [done|].
  intros [Hc Hs]%orb_false_iff. by rewrite Hc, IH.
Qed.

Lemma split_app_sep sep p s :
  contains sep p = false →
  split sep (p ++ String sep s) = p :: split sep s.
Proof.
  induction p as [|c p IH]; simpl.
  - intros _. by rewrite Ascii.eqb_refl.
  - intros [Hc Hp]%orb_false_iff. by rewrite Hc, IH.
Qed.

(** Splitting undoes joining, for a non-empty list of pieces free of the
    separator. *)
Lemma split_join sep l :
  l ≠ [] → Forall (λ p, contains sep p = false) l →
  split sep (join (String sep EmptyString) l) = l.
Proof.
  induction l as [|x l IH]; [done|]. intros _ Hl. inv Hl.
  destruct l as [|y l].
  - by apply split_no_sep.
  - change (join (String sep EmptyString) (x :: y :: l))
      with (x +:+ String sep (join (String sep EmptyString) (y :: l))).
    rewrite split_app_sep by done. f_equal. by apply IH.
Qed.

End PyStrFacts.

(** ** Scoring *)

Section scoring.
Local Open Scope Qc_scope.
Implicit Types A B : gset string.

Lemma len_nonneg A : (0 ≤ len A)%Z.
Proof. unfold len. lia. Qed.

Lemma len_zero A : len A = 0%Z ↔ A = ∅.
Proof.
  unfold len. rewrite <-leibniz_equiv_iff, <-size_empty_iff. lia.
Qed.

Lemma len_inter_le_r A B : (len (A ∩ B) ≤ len B)%Z.
Proof. unfold len. apply inj_le, subseteq_size. set_solver. Qed.

Lemma len_inter_le_l A B : (len (A ∩ B) ≤ len A)%Z.
Proof. unfold len. apply inj_le, subseteq_size. set_solver. Qed.

Lemma len_inter_full A B : len (A ∩ B) = len B ↔ B ⊆ A.
Proof.
  unfold len. split.
  - intros Hsz. assert (A ∩ B ≡ B) as Heq.
    { apply set_subseteq_size_equiv; [set_solver|lia]. }
    set_solver.
  - intros Hsub. f_equal. f_equal. set_solver.
Qed.

Lemma Qc_of_Z_nonzero n : n ≠ 0%Z → Qc_of_Z n ≠ 0.
Proof. rewrite <-Z2Qc_inj_0. by intros ? ?%Z2Qc_inj. Qed.

Lemma Qc_of_Z_pos n : (0 < n)%Z → 0 < Qc_of_Z n.
Proof. by rewrite <-Z2Qc_inj_0, <-Z2Qc_inj_lt. Qed.

Lemma ratio_le_1 c t : (c ≤ t)%Z → (0 < t)%Z → Qc_of_Z c / Qc_of_Z t ≤ 1.
Proof.
  intros Hc Ht. apply (Qcmult_le_mono_pos_r _ _ (Qc_of_Z t)).
  { by apply Qc_of_Z_pos. }
  rewrite Qcmult_1_l, (Qcmult_comm _ (Qc_of_Z t)), Qcmult_div_r.
  - by rewrite <-Z2Qc_inj_le.
  - apply Qc_of_Z_nonzero. lia.
Qed.

Lemma ratio_nonneg c t : (0 ≤ c)%Z → (0 < t)%Z → 0 ≤ Qc_of_Z c / Qc_of_Z t.
Proof.
  intros Hc Ht. apply Qcmult_nonneg_nonneg.
  - by rewrite <-Z2Qc_inj_0, <-Z2Qc_inj_le.
  - apply Qclt_le_weak, Qcinv_pos. by apply Qc_of_Z_pos.
Qed.

Lemma ratio_eq_1 c t : (0 < t)%Z → Qc_of_Z c / Qc_of_Z t = 1 ↔ c = t.
Proof.
  intros Ht. assert (Qc_of_Z t ≠ 0) by (apply Qc_of_Z_nonzero; lia). split.
  - intros Hq. apply Z2Qc_inj.
    rewrite <-(Qcmult_div_r (Qc_of_Z c) (Qc_of_Z t)) by done.
    by rewrite Hq, Qcmult_1_r.
  - intros ->. by apply Qcmult_inv_r.
Qed.

Lemma percent_eq_100 q : q * Qc_of_Z 100 = Qc_of_Z 100 ↔ q = 1.
Proof.
  assert (Qc_of_Z 100 ≠ 0) by (by apply Qc_of_Z_nonzero). split.
  - intros Hq. rewrite <-(Qcdiv_mult_l q (Qc_of_Z 100)) by done.
    rewrite Hq. by apply Qcmult_inv_r.
  - intros ->. apply Qcmult_1_l.
Qed.

(** [match_skills] never raises; its result in closed form. *)
Lemma match_skills_eq A B :
  match_skills A B =
  Some (len (A ∩ B),
        if decide (len B > 0)%Z
        then Qc_of_Z (len (A ∩ B)) / Qc_of_Z (len B) * Qc_of_Z 100
        else Qc_of_Z 0).
Proof.
  unfold match_skills, py_truediv. simpl.
  destruct (decide (len B > 0)%Z) as [Hpos|Hpos]; simpl; [|done].
  destruct (decide (len B = 0%Z)); [lia|done].
Qed.
End scoring.

Section scoring_claims.
Local Open Scope Qc_scope.
Implicit Types A B : gset string.

(** In exact arithmetic the percent is [100 * |A ∩ B| / |B|] when [B] is
    not empty, and [0] when [B] is empty. *)
Lemma match_skills_exact A B :
  match_skills A B =
  Some (Z.of_nat (size (A ∩ B)),
        if decide (B = ∅) then Qc_of_Z 0
        else Qc_of_Z 100 * Qc_of_Z (Z.of_nat (size (A ∩ B)))
             / Qc_of_Z (Z.of_nat (size B))).
Proof.
  rewrite match_skills_eq. fold (len (A ∩ B)) (len B). do 2 f_equal.
  pose proof (len_nonneg B).
  destruct (decide (B = ∅)) as [HB|HB], (decide (len B > 0)%Z) as [Hl|Hl];
    [apply len_zero in HB; lia|done|
    |exfalso; apply HB; apply len_zero; lia].
  assert (Qc_of_Z (len B) ≠ 0) by (apply Qc_of_Z_nonzero; lia).
  by field.
Qed.

(** C5: [match_skills A ∅] is [(0, 0)] for every [A]; the division is
    reached only under the test [total_required_skills > 0], so that no
    input makes [match_skills] raise, although the division alone would
    raise exactly when [B] is empty. *)
Theorem match_skills_empty_required :
  (∀ A, match_skills A ∅ = Some (0%Z, Qc_of_Z 0)) ∧
  (∀ A B, is_Some (match_skills A B)) ∧
  (∀ A B, py_truediv (len (A ∩ B)) (len B) = None ↔ B = ∅).
Proof.
  split_and!.
  - intros A. rewrite match_skills_eq.
    replace (A ∩ ∅) with (∅ : gset string) by set_solver. done.
  - intros A B. rewrite match_skills_eq. eauto.
  - intros A B. unfold py_truediv. rewrite <-len_zero.
    destruct (decide (len B = 0%Z)); naive_solver.
Qed.

(** C9: the count returned by [match_skills A B] is at most [|B|] and at
    most [|A|], and the percent lies between 0 and 100. *)
Theorem match_skills_bounds A B :
  ∃ count percent,
    match_skills A B = Some (count, percent) ∧
    (0 ≤ count ≤ len B)%Z ∧ (count ≤ len A)%Z ∧
    Qc_of_Z 0 ≤ percent ≤ Qc_of_Z 100.
Proof.
  eexists _, _. split; [apply match_skills_eq|].
  pose proof (len_nonneg (A ∩ B)). pose proof (len_inter_le_r A B).
  pose proof (len_inter_le_l A B). split_and!; [done..| |].
  - destruct (decide (len B > 0)%Z); [|done].
    rewrite Z2Qc_inj_0. apply Qcmult_nonneg_nonneg.
    + apply ratio_nonneg; lia.
    + by rewrite <-Z2Qc_inj_0, <-Z2Qc_inj_le.
  - destruct (decide (len B > 0)%Z); [|by rewrite <-Z2Qc_inj_le].
    rewrite <-(Qcmult_1_l (Qc_of_Z 100)) at 2.
    apply Qcmult_le_mono_nonneg_r.
    + by rewrite <-Z2Qc_inj_0, <-Z2Qc_inj_le.
    + apply ratio_le_1; lia.
Qed.
End scoring_claims.

(** ** Scoring on doubles *)

Section scoring_f64.
Implicit Types A B : gset string.

Lemma F64_match_skills_eq A B :
  F64.match_skills A B =
  Some (len (A ∩ B),
        if decide (B = ∅) then PyInt 0
        else PyFloat (PrimFloat.mul
                        (PrimFloat.div (F64.of_Z (len (A ∩ B)))
                                       (F64.of_Z (len B)))
                        100%float)).
Proof.
  unfold F64.match_skills, F64.py_truediv. simpl.
  pose proof (len_nonneg B).
  destruct (decide (B = ∅)) as [HB|HB], (decide (len B > 0)%Z) as [Hl|Hl];
    simpl; [apply len_zero in HB; lia|done|
           |exfalso; apply HB; apply len_zero; lia].
  destruct (decide (len B = 0%Z)); [lia|done].
Qed.

(** C1, as the code has it: [match_skills A B] returns [|A ∩ B|] with,
    when [B] is not empty, the double [(|A ∩ B| / |B|) * 100], the
    quotient rounded first and the product rounded next, and with the
    integer 0 when [B] is empty; in exact arithmetic that percent is
    [100 * |A ∩ B| / |B|]; the result depends on nothing but the elements
    of the two sets. *)
Theorem match_skills_divides_then_scales :
  (∀ A B,
      F64.match_skills A B =
      Some (Z.of_nat (size (A ∩ B)),
            if decide (B = ∅) then PyInt 0
            else PyFloat (PrimFloat.mul
                            (PrimFloat.div
                               (F64.of_Z (Z.of_nat (size (A ∩ B))))
                               (F64.of_Z (Z.of_nat (size B))))
                            100%float))) ∧
  (∀ A B,
      match_skills A B =
      Some (Z.of_nat (size (A ∩ B)),
            if decide (B = ∅) then Qc_of_Z 0
            else (Qc_of_Z 100 * Qc_of_Z (Z.of_nat (size (A ∩ B)))
                  / Qc_of_Z (Z.of_nat (size B)))%Qc)) ∧
  (∀ A A' B B',
      (∀ x, x ∈ A ↔ x ∈ A') → (∀ x, x ∈ B ↔ x ∈ B') →
      F64.match_skills A B = F64.match_skills A' B' ∧
      match_skills A B = match_skills A' B').
Proof.
  split_and!.
  - apply F64_match_skills_eq.
  - apply match_skills_exact.
  - intros A A' B B' HA HB.
    assert (A = A') as -> by by apply set_eq.
    assert (B = B') as -> by by apply set_eq.
    done.
Qed.

Lemma match_skills_divides_then_scales_witness :
  F64.match_skills ({[ "sql" ]} ∪ {[ "ruby" ]})%string {[ "sql" ]}%string
  = F64.match_skills ({[ "ruby" ]} ∪ {[ "sql" ]})%string {[ "sql" ]}%string ∧
  match_skills ({[ "sql" ]} ∪ {[ "ruby" ]})%string {[ "sql" ]}%string
  = match_skills ({[ "ruby" ]} ∪ {[ "sql" ]})%string {[ "sql" ]}%string.
Proof.
  apply (proj2 (proj2 match_skills_divides_then_scales)).
  - intros x. rewrite !elem_of_union. tauto.
  - intros x. reflexivity.
Defined.

(** C1, as stated, fails on doubles: for one skill matched out of three
    the code returns [(1 / 3) * 100], which is not [100.0 * 1 / 3]. *)
Lemma match_skills_not_spec_percent :
  F64.match_skills {[ "sql" ]}%string {[ "ruby"; "sql"; "python" ]}%string
  ≠ Some (1%Z, PyFloat (F64.spec_percent 1 3)).
Proof.
  intros H.
  apply (f_equal (λ r, match r with
                       | Some (_, PyFloat x) =>
                           PrimFloat.eqb x (F64.spec_percent 1 3)
                       | _ => false
                       end)) in H.
  vm_compute in H. discriminate H.
Qed.

(** The two doubles of that run: 33.333333333333329 from the code,
    33.333333333333336 from the formula of the specification. *)
Example match_skills_one_of_three :
  F64.match_skills {[ "sql" ]}%string {[ "ruby"; "sql"; "python" ]}%string
  = Some (1%Z, PyFloat 0x1.0aaaaaaaaaaaap+5%float) ∧
  F64.spec_percent 1 3 = 0x1.0aaaaaaaaaaabp+5%float.
Proof. split; vm_compute; reflexivity. Qed.
End scoring_f64.

(** ** Normalisation *)

Section normalizer.
Import PyStr PyStrFacts.

Lemma rstrip_nonspace c s : isspace c = false → rstrip (String c s) ≠ EmptyString.
Proof. intros Hc. simpl. rewrite Hc. by destruct (rstrip s). Qed.

(** A string that trims to nothing holds white space only. *)
Lemma strip_blank_contains c s :
  isspace c = false → strip s = EmptyString → contains c s = false.
Proof.
  intros Hc. induction s as [|d s IH]; [done|].
  unfold strip. simpl. destruct (isspace d) eqn:Hd.
  - intros Hs. rewrite (IH Hs), orb_false_r.
    apply Ascii.eqb_neq. intros ->. congruence.
  - intros Hs. by apply rstrip_nonspace in Hs.
Qed.

Lemma parse_skills_elem e raw :
  e ∈ parse_skills raw ↔ ∃ p, e = lower (strip p) ∧ p ∈ split comma raw.
Proof. unfold parse_skills. by rewrite elem_of_list_to_set, list_elem_of_fmap. Qed.

Lemma parse_skills_nonempty raw : parse_skills raw ≠ ∅.
Proof.
  pose proof (split_nonempty comma raw) as Hne.
  destruct (split comma raw) as [|p ps] eqn:Hs; [done|].
  assert (lower (strip p) ∈ parse_skills raw); [|set_solver].
  apply parse_skills_elem. exists p. rewrite Hs. split; [done|]. left.
Qed.

Lemma parse_skills_normal e raw :
  e ∈ parse_skills raw → lower (strip e) = e ∧ contains comma e = false.
Proof.
  intros (p & -> & Hp)%parse_skills_elem. split; [apply normalize_idemp|].
  rewrite contains_lower_comma. apply contains_strip.
  pose proof (split_pieces comma raw) as Hall.
  by eapply Forall_forall in Hall.
Qed.

Lemma parse_skills_blank raw :
  strip raw = EmptyString → parse_skills raw = {[ EmptyString ]}.
Proof.
  intros Hraw. unfold parse_skills.
  rewrite split_no_sep by by apply strip_blank_contains.
  simpl. rewrite Hraw. simpl. set_solver.
Qed.

(** What the storage layer writes is read back as the set it was
    written from, by the constructors and by the plain split alike. *)
Lemma render_read_back raw order :
  order ≡ₚ elements (parse_skills raw) →
  split comma (render_skills order) = order ∧
  list_to_set order = parse_skills raw ∧
  Forall (λ e, lower (strip e) = e) order.
Proof.
  intros Horder.
  assert (∀ e, e ∈ order → e ∈ parse_skills raw) as Hin.
  { intros e. rewrite Horder. apply elem_of_elements. }
  split_and!.
  - apply (split_join comma).
    + intros ->. symmetry in Horder. apply Permutation_nil_r in Horder.
      apply elements_empty_iff in Horder.
      by apply (parse_skills_nonempty raw), leibniz_equiv.
    + apply Forall_forall. intros e He. by apply (parse_skills_normal e raw), Hin.
  - rewrite Horder. apply list_to_set_elements_L.
  - apply Forall_forall. intros e He. by apply (parse_skills_normal e raw), Hin.
Qed.
End normalizer.

Section normalizer_claims.
Import PyStr PyStrFacts.
Local Open Scope Qc_scope.

(** C6, as the code has it: the skills parsing of the [JobSeeker] and
    [Job] constructors yields, for the empty raw string, the singleton
    set that holds the empty string. *)
Theorem parse_skills_empty_raw :
  parse_skills "" = {[ ""%string ]} ∧
  ∀ id name,
    JobSeeker.skills (JobSeeker.init id name "") = {[ ""%string ]} ∧
    Job.required_skills (Job.init id name "") = {[ ""%string ]}.
Proof.
  assert (parse_skills "" = {[ ""%string ]}) by by apply parse_skills_blank.
  done.
Qed.

(** C6, as stated, fails: the empty raw string does not parse to the
    empty set. *)
Lemma parse_skills_empty_raw_not_empty : parse_skills "" ≠ ∅.
Proof. apply parse_skills_nonempty. Qed.

(** C7: whatever the order in which the parsed set is joined with
    commas, parsing the joined string again gives the set parsed from
    [raw], and so does the plain split on commas that
    [process_recommendations] applies to the stored column. *)
Theorem parse_render_idempotent raw order :
  order ≡ₚ elements (parse_skills raw) →
  parse_skills (render_skills order) = parse_skills raw ∧
  stored_skills (render_skills order) = parse_skills raw.
Proof.
  intros (Hsplit & Hset & Hfix)%render_read_back.
  unfold parse_skills at 1, stored_skills. rewrite Hsplit. split; [|done].
  rewrite <-Hset. f_equal. rewrite <-(list_fmap_id order) at 2.
  by apply Forall_fmap_ext.
Qed.

Lemma parse_render_idempotent_witness :
  ["ruby"; "sql"]%string ≡ₚ elements (parse_skills "Ruby, SQL, ruby") ∧
  parse_skills (render_skills ["ruby"; "sql"]%string)
    = parse_skills "Ruby, SQL, ruby" ∧
  stored_skills (render_skills ["ruby"; "sql"]%string)
    = parse_skills "Ruby, SQL, ruby".
Proof.
  assert (["ruby"; "sql"]%string ≡ₚ elements (parse_skills "Ruby, SQL, ruby"))
    as Horder by (vm_compute; apply perm_swap).
  split; [exact Horder|].
  exact (parse_render_idempotent "Ruby, SQL, ruby" ["ruby"; "sql"]%string Horder).
Defined.

(** C10: the percent returned by [match_skills A B] is 100 exactly when
    [B] is not empty and included in [A]; a blank skills string parses to
    the singleton of the empty string, so that a seeker with a blank
    skills field scores [(1, 100)] against a job with a blank
    required-skills field. *)
Theorem match_skills_full_match :
  (∀ A B : gset string, ∃ count percent,
      match_skills A B = Some (count, percent) ∧
      (percent = Qc_of_Z 100 ↔ B ≠ ∅ ∧ B ⊆ A)) ∧
  (∀ id name id' title skills required_skills,
      strip skills = ""%string → strip required_skills = ""%string →
      parse_skills skills = {[ ""%string ]} ∧
      match_skills (JobSeeker.skills (JobSeeker.init id name skills))
                   (Job.required_skills (Job.init id' title required_skills))
      = Some (1%Z, Qc_of_Z 100)).
Proof.
  split.
  - intros A B. eexists _, _. split; [apply match_skills_eq|].
    pose proof (len_nonneg B).
    destruct (decide (len B > 0)%Z) as [Hl|Hl].
    + rewrite percent_eq_100, ratio_eq_1, len_inter_full by lia.
      split; [|naive_solver]. intros ?. split; [|done].
      intros HB%len_zero. lia.
    + split; [by intros ?%Z2Qc_inj|]. intros [HB _].
      destruct HB. apply len_zero. lia.
  - intros id name id' title skills required_skills Hs Hr. simpl.
    rewrite !parse_skills_blank by done. split; [done|].
    rewrite match_skills_eq.
    replace ({[""%string]} ∩ {[""%string]}) with ({[""%string]} : gset string)
      by set_solver.
    unfold len. rewrite size_singleton. simpl. do 2 f_equal.
    by apply Qc_is_canon.
Qed.

Lemma match_skills_full_match_witness :
  strip "" = ""%string ∧ strip "  " = ""%string ∧
  match_skills (JobSeeker.skills (JobSeeker.init 1 "Alice" ""))
               (Job.required_skills (Job.init 1 "Ruby Developer" "  "))
  = Some (1%Z, Qc_of_Z 100).
Proof.
  split; [reflexivity|]. split; [reflexivity|].
  apply (proj2 match_skills_full_match 1%Z "Alice"%string 1%Z
           "Ruby Developer"%string ""%string "  "%string);
    reflexivity.
Defined.
End normalizer_claims.

(** ** Recommendation builder and worker pool *)

Section builder.
Lemma foldl_process_job js_data job_data acc :
  foldl (process_job js_data (stored_skills (SeekerRow.skills js_data)))
        (Some acc) job_data
  = Some (acc ++ (pair_recommendation js_data <$> job_data)).
Proof.
  revert acc. induction job_data as [|job jobs IH]; intros acc.
  - simpl. by rewrite app_nil_r.
  - cbn [foldl].
    assert (process_job js_data (stored_skills (SeekerRow.skills js_data))
              (Some acc) job
            = Some (acc ++ [pair_recommendation js_data job])) as ->.
    { unfold process_job. simpl. by rewrite match_skills_eq. }
    rewrite IH. by rewrite <-app_assoc.
Qed.

(** The loop of [process_recommendations] is a map over the job list. *)
Lemma process_recommendations_eq js_data job_data :
  process_recommendations js_data job_data
  = Some (pair_recommendation js_data <$> job_data).
Proof. apply (foldl_process_job js_data job_data []). Qed.
End builder.

Section pool.
Context {A B C : Type} (func : A → B → option C) (iterable : list (A * B)).

Lemma length_finish slots i : length (finish func iterable slots i) = length slots.
Proof. unfold finish. destruct (iterable !! i) as [[a b]|]; by rewrite ?length_insert. Qed.

Lemma lookup_finish slots i j :
  length slots = length iterable →
  finish func iterable slots i !! j =
  if decide (i = j) then (λ p, Some (uncurry func p)) <$> iterable !! j
  else slots !! j.
Proof.
  intros Hlen. unfold finish. destruct (decide (i = j)) as [->|Hne].
  - destruct (iterable !! j) as [[a b]|] eqn:Hj; simpl.
    + apply list_lookup_insert_eq. rewrite Hlen. by eapply lookup_lt_Some.
    + apply lookup_ge_None. rewrite Hlen. by apply lookup_ge_None.
  - destruct (iterable !! i) as [[a b]|]; [|done].
    by apply list_lookup_insert_ne.
Qed.

(** After the tasks of [sched] have finished, slot [j] holds the outcome
    of task [j] if [j] is in [sched], and is untouched otherwise. *)
Lemma lookup_foldl_finish sched slots j :
  length slots = length iterable →
  foldl (finish func iterable) slots sched !! j =
  if decide (j ∈ sched) then (λ p, Some (uncurry func p)) <$> iterable !! j
  else slots !! j.
Proof.
  revert slots. induction sched as [|i sched IH]; intros slots Hlen.
  - done.
  - change (foldl (finish func iterable) slots (i :: sched))
      with (foldl (finish func iterable) (finish func iterable slots i) sched).
    rewrite IH by by rewrite length_finish.
    rewrite lookup_finish by done.
    destruct (decide (j ∈ sched)) as [Hj|Hj],
             (decide (j ∈ i :: sched)) as [Hj'|Hj'],
             (decide (i = j)) as [Hij|Hij];
      try done; exfalso; set_solver.
Qed.

Lemma mapM_id_fmap {X Y} (g : X → option Y) (l : list X) :
  mapM id (g <$> l) = mapM g l.
Proof. apply option_eq. intros k. by rewrite !mapM_Some, Forall2_fmap_l. Qed.

(** Whatever the order in which the tasks finish, the pool returns what
    the sequential map returns. *)
Lemma Pool_starmap_eq sched :
  sched ≡ₚ seq 0 (length iterable) →
  Pool_starmap sched func iterable = mapM (uncurry func) iterable.
Proof.
  intros Hsched. unfold Pool_starmap.
  assert (foldl (finish func iterable) (replicate (length iterable) None) sched
          = (λ p, Some (uncurry func p)) <$> iterable) as ->.
  { apply list_eq. intros j.
    rewrite lookup_foldl_finish by apply length_replicate.
    rewrite list_lookup_fmap. destruct (decide (j ∈ sched)) as [Hj|Hj]; [done|].
    rewrite Hsched, elem_of_seq in Hj.
    rewrite (proj1 (lookup_replicate_None _ _ _)) by lia.
    rewrite (proj2 (lookup_ge_None _ _)); [done|lia]. }
  change (λ p, Some (uncurry func p)) with (Some ∘ uncurry func).
  rewrite list_fmap_compose, (mapM_fmap_Some id Some) by done.
  simpl. apply mapM_id_fmap.
Qed.
End pool.

(** ** Sorting *)

Section sorted_facts.
Context {A K : Type} (key : A → K) (lt : K → K → bool).
Context (R : relation K) `{!StrictOrder R, !Trichotomy R}.
Hypothesis lt_spec : ∀ a b, lt a b = true ↔ R a b.

Lemma StronglySorted_mono {X} (R1 R2 : relation X) l :
  (∀ x y, R1 x y → R2 x y) → StronglySorted R1 l → StronglySorted R2 l.
Proof.
  intros HR. induction 1 as [|x l Hl IH Hx]; constructor; [done|].
  eapply Forall_impl; [done|]. apply HR.
Qed.

Lemma key_le_refl x : key_le key R x x.
Proof. unfold key_le. apply (irreflexivity R). Qed.

Lemma key_lt_le x y : R (key x) (key y) → key_le key R x y.
Proof. intros Hxy Hyx. by apply (irreflexivity R (key x)); trans (key y). Qed.

Lemma key_le_trans x y z : key_le key R x y → key_le key R y z → key_le key R x z.
Proof.
  unfold key_le. intros Hxy Hyz Hzx.
  destruct (trichotomy R (key x) (key y)) as [Hlt|[Heq|Hgt]]; [| |done].
  - apply Hyz. by trans (key x).
  - apply Hyz. by rewrite <-Heq.
Qed.

Lemma key_le_antisym x y : key_le key R x y → key_le key R y x → key x = key y.
Proof.
  unfold key_le. intros Hxy Hyx.
  by destruct (trichotomy R (key x) (key y)) as [?|[?|?]].
Qed.

Lemma sorted_insert_perm x l : sorted_insert key lt x l ≡ₚ x :: l.
Proof.
  induction l as [|y l IH]; simpl; [done|].
  destruct (lt (key y) (key x)); [|done].
  rewrite IH. apply perm_swap.
Qed.

Lemma sorted_perm l : sorted key lt l ≡ₚ l.
Proof.
  induction l as [|x l IH]; simpl; [done|].
  by rewrite sorted_insert_perm, IH.
Qed.

Lemma sorted_insert_sorted x l :
  StronglySorted (key_le key R) l → StronglySorted (key_le key R) (sorted_insert key lt x l).
Proof.
  induction 1 as [|y l Hl IH Hy]; simpl.
  { repeat constructor. }
  destruct (lt (key y) (key x)) eqn:Hlt.
  - constructor; [done|]. rewrite sorted_insert_perm.
    constructor; [|done]. by apply key_lt_le, lt_spec.
  - assert (key_le key R x y) as Hxy.
    { intros HR%lt_spec. congruence. }
    constructor; [by constructor|]. constructor; [done|].
    eapply Forall_impl; [done|]. intros z. by apply key_le_trans.
Qed.

Lemma sorted_sorted l : StronglySorted (key_le key R) (sorted key lt l).
Proof.
  induction l as [|x l IH]; simpl; [constructor|].
  by apply sorted_insert_sorted.
Qed.

(** The sort is stable: the elements of one key keep their input
    order. *)
Lemma sorted_insert_stable (P : A → Prop) `{!∀ x, Decision (P x)} x l :
  (∀ y z, P y → P z → key y = key z) →
  filter P (sorted_insert key lt x l) = filter P (x :: l).
Proof.
  intros HP. induction l as [|y l IH]; simpl; [done|].
  destruct (lt (key y) (key x)) eqn:Hlt; [|done].
  rewrite !filter_cons, IH, !filter_cons.
  destruct (decide (P y)) as [Hy|Hy], (decide (P x)) as [Hx|Hx]; try done.
  apply lt_spec in Hlt. rewrite (HP y x Hy Hx) in Hlt.
  by apply (irreflexivity R) in Hlt.
Qed.

Lemma sorted_stable (P : A → Prop) `{!∀ x, Decision (P x)} l :
  (∀ y z, P y → P z → key y = key z) →
  filter P (sorted key lt l) = filter P l.
Proof.
  intros HP. induction l as [|x l IH]; simpl; [done|].
  rewrite sorted_insert_stable by done. by rewrite !filter_cons, IH.
Qed.

(** Two sorted lists with the same elements are equal, when elements
    with equal keys are equal. *)
Lemma sorted_unique l1 l2 :
  (∀ x y, x ∈ l1 → y ∈ l1 → key x = key y → x = y) →
  StronglySorted (key_le key R) l1 → StronglySorted (key_le key R) l2 →
  l1 ≡ₚ l2 → l1 = l2.
Proof.
  intros Hinj Hs1. revert l2 Hinj.
  induction Hs1 as [|x l1 Hs1 IH Hx]; intros l2 Hinj Hs2 Hperm.
  { by apply Permutation_nil_l in Hperm. }
  destruct Hs2 as [|y l2 Hs2 Hy].
  { by apply Permutation_nil_r in Hperm. }
  assert (x = y) as <-.
  { assert (y ∈ x :: l1) as Hyin by (rewrite Hperm; left).
    assert (x ∈ y :: l2) as Hxin by (rewrite <-Hperm; left).
    apply Hinj; [left|done|].
    apply key_le_antisym.
    - apply elem_of_cons in Hyin as [->|Hyin]; [apply key_le_refl|].
      by eapply Forall_forall in Hx.
    - apply elem_of_cons in Hxin as [->|Hxin]; [apply key_le_refl|].
      by eapply Forall_forall in Hy. }
  f_equal. apply IH; [|done|by apply (inj (cons x))].
  intros a b Ha Hb. apply Hinj; by right.
Qed.

Lemma sorted_perm_eq l1 l2 :
  (∀ x y, x ∈ l1 → y ∈ l1 → key x = key y → x = y) →
  l1 ≡ₚ l2 → sorted key lt l1 = sorted key lt l2.
Proof.
  intros Hinj Hperm. apply sorted_unique; [|apply sorted_sorted..|].
  - intros x y. rewrite !sorted_perm. apply Hinj.
  - by rewrite !sorted_perm.
Qed.
End sorted_facts.

(** ** The composite key *)

Section ranking.
Local Open Scope Qc_scope.

Global Instance Qc_lexico_po : StrictOrder (@lexico Qc _).
Proof. unfold lexico, Qc_lexico. apply _. Qed.

Global Instance Qc_lexico_trichotomy : TrichotomyT (@lexico Qc _).
Proof.
  intros x y. unfold lexico, Qc_lexico.
  destruct (Qc_dec x y) as [[?|?]|?]; [left; by left|by right|left; by right].
Defined.

(** [tuple_lt] decides the lexicographic order of the key tuples. *)
Lemma tuple_lt_spec a b : tuple_lt a b = true ↔ lexico a b.
Proof.
  destruct a as [[a1 a2] a3], b as [[b1 b2] b3].
  unfold tuple_lt, lexico, prod_lexico; simpl.
  unfold lexico, prod_lexico, Z_lexico, Qc_lexico; simpl.
  destruct (decide (a1 = b1)) as [->|H1].
  - destruct (decide (a2 = b2)) as [->|H2]; rewrite bool_decide_eq_true.
    + split; [by right|]. intros [[?|[_ ?]]|[_ ?]]; [lia| |done].
      by destruct (irreflexivity Qclt b2).
    + split; [left; by right|]. intros [[?|[_ ?]]|[[= ?] ?]]; [lia|done..].
  - rewrite bool_decide_eq_true. split; [left; by left|].
    intros [[?|[? _]]|[[= ? ?] ?]]; done.
Qed.

Lemma Qcopp_lt x y : - x < - y ↔ y < x.
Proof.
  rewrite !Qclt_nge. split; intros H ?; apply H.
  - by apply Qcopp_le_compat.
  - rewrite <-(Qcopp_involutive x), <-(Qcopp_involutive y).
    by apply Qcopp_le_compat.
Qed.

(** An output sorted on the key tuples is ranked as the specification
    words it. *)
Lemma key_le_ranked x y : key_le sort_key lexico x y → ranked_before x y.
Proof.
  unfold key_le, ranked_before, sort_key, lexico, prod_lexico; simpl.
  unfold lexico, prod_lexico, Z_lexico, Qc_lexico; simpl.
  rewrite Qcopp_lt. intros Hn.
  destruct (Z.lt_trichotomy (jobseeker_id x) (jobseeker_id y)) as [?|[Hid|?]];
    [by left| |destruct Hn; left; by left].
  right. split; [done|].
  destruct (Qc_dec (matching_skill_percent x) (matching_skill_percent y))
    as [[?|?]|Hp]; [destruct Hn; left; by right|by left|].
  right. split; [done|].
  destruct (Z.le_gt_cases (job_id x) (job_id y)); [done|].
  destruct Hn. right. split; [|lia]. by rewrite Hid, Hp.
Qed.

Lemma ranked_sorted l :
  StronglySorted ranked_before (sorted sort_key tuple_lt l).
Proof.
  eapply StronglySorted_mono; [apply key_le_ranked|].
  apply (sorted_sorted sort_key tuple_lt lexico). apply tuple_lt_spec.
Qed.
End ranking.

(** ** Dispatch *)

Section dispatch_facts.
Implicit Types (jobseekers : list SeekerRow.t) (jobs : list JobRow.t).

Lemma all_pairs_cons js jobseekers jobs :
  all_pairs (js :: jobseekers) jobs
  = (pair_recommendation js <$> jobs) ++ all_pairs jobseekers jobs.
Proof. done. Qed.

Lemma length_all_pairs jobseekers jobs :
  length (all_pairs jobseekers jobs) = (length jobseekers * length jobs)%nat.
Proof.
  induction jobseekers as [|js jobseekers IH]; [done|].
  rewrite all_pairs_cons, length_app, length_fmap, IH. simpl. lia.
Qed.

Lemma elem_of_all_pairs x jobseekers jobs :
  x ∈ all_pairs jobseekers jobs ↔
  ∃ js job, js ∈ jobseekers ∧ job ∈ jobs ∧ x = pair_recommendation js job.
Proof.
  induction jobseekers as [|js jobseekers IH].
  { split; [by intros ?%elem_of_nil|]. by intros (? & ? & ?%elem_of_nil & _). }
  rewrite all_pairs_cons, elem_of_app, IH, list_elem_of_fmap. split.
  - intros [(job & -> & ?)|(js' & job & ? & ? & ->)].
    + exists js, job. split_and!; [left|done..].
    + exists js', job. split_and!; [by right|done..].
  - intros (js' & job & [->|?]%elem_of_cons & ? & ->); [left|right]; eauto.
Qed.

Lemma all_pairs_perm jobseekers jobseekers' jobs jobs' :
  jobseekers ≡ₚ jobseekers' → jobs ≡ₚ jobs' →
  all_pairs jobseekers jobs ≡ₚ all_pairs jobseekers' jobs'.
Proof.
  intros Hs Hj. trans (all_pairs jobseekers jobs').
  - clear Hs. induction jobseekers as [|js jobseekers IH]; [done|].
    by rewrite !all_pairs_cons, IH, Hj.
  - clear Hj. induction Hs as [|js l l' _ IH|js js' l|l l' l'' _ IH _ IH'].
    + done.
    + by rewrite !all_pairs_cons, IH.
    + rewrite !all_pairs_cons, !app_assoc.
      by rewrite (comm app (pair_recommendation js' <$> jobs')).
    + by rewrite IH.
Qed.

(** On tables with distinct ids, a recommendation is determined by its
    sort key. *)
Lemma NoDup_fmap_elem_inj {X Y} (f : X → Y) (l : list X) x y :
  NoDup (f <$> l) → x ∈ l → y ∈ l → f x = f y → x = y.
Proof.
  induction l as [|z l IH]; [by intros _ ?%elem_of_nil|].
  rewrite fmap_cons, NoDup_cons.
  intros [Hz Hl] [->|Hx]%elem_of_cons [->|Hy]%elem_of_cons Hf; [done| | |by apply IH].
  - destruct Hz. rewrite Hf. by apply list_elem_of_fmap_2.
  - destruct Hz. rewrite <-Hf. by apply list_elem_of_fmap_2.
Qed.

Lemma all_pairs_key_inj jobseekers jobs x y :
  NoDup (SeekerRow.id <$> jobseekers) → NoDup (JobRow.id <$> jobs) →
  x ∈ all_pairs jobseekers jobs → y ∈ all_pairs jobseekers jobs →
  sort_key x = sort_key y → x = y.
Proof.
  intros Hs Hj (js & job & ? & ? & ->)%elem_of_all_pairs
    (js' & job' & ? & ? & ->)%elem_of_all_pairs [= Hid _ Hid'].
  assert (js = js') as -> by by eapply NoDup_fmap_elem_inj.
  assert (job = job') as -> by by eapply NoDup_fmap_elem_inj.
  done.
Qed.

Lemma mapM_process_recommendations jobseekers jobs :
  mapM (λ js, process_recommendations js jobs) jobseekers
  = Some ((λ js, pair_recommendation js <$> jobs) <$> jobseekers).
Proof.
  apply mapM_Some, Forall2_fmap_r, Forall_Forall2_diag, Forall_forall.
  intros js _. apply process_recommendations_eq.
Qed.

(** With every task finished, the dispatcher returns the cross
    product. *)
Lemma dispatch_eq sched conn :
  sched ≡ₚ seq 0 (length (jobseekers_table conn)) →
  dispatch sched conn
  = Some (all_pairs (jobseekers_table conn) (jobs_table conn)).
Proof.
  intros Hsched. unfold dispatch.
  rewrite Pool_starmap_eq by by rewrite length_fmap.
  rewrite <-mapM_id_fmap, <-list_fmap_compose, mapM_id_fmap.
  change (uncurry process_recommendations ∘ _)
    with (λ js, process_recommendations js (jobs_table conn)).
  by rewrite mapM_process_recommendations.
Qed.

(** [generate_recommendation_parallel] sorts what the dispatcher
    returns. *)
Lemma generate_via_dispatch sched conn :
  generate_recommendation_parallel sched conn
  = recommendations ← dispatch sched conn;
    Some (sorted sort_key tuple_lt recommendations).
Proof.
  unfold generate_recommendation_parallel, dispatch. simpl.
  by destruct (Pool_starmap _ _ _).
Qed.

Lemma generate_parallel_eq sched conn :
  sched ≡ₚ seq 0 (length (jobseekers_table conn)) →
  generate_recommendation_parallel sched conn
  = Some (sorted sort_key tuple_lt
            (all_pairs (jobseekers_table conn) (jobs_table conn))).
Proof.
  intros Hsched%dispatch_eq. by rewrite generate_via_dispatch, Hsched.
Qed.

Lemma generate_sequential_eq conn :
  generate_recommendation_sequential conn
  = Some (sorted sort_key tuple_lt
            (all_pairs (jobseekers_table conn) (jobs_table conn))).
Proof.
  unfold generate_recommendation_sequential.
  by rewrite mapM_process_recommendations.
Qed.

Lemma StronglySorted_lookup {X} (R : relation X) l i j x y :
  StronglySorted R l → (i < j)%nat →
  l !! i = Some x → l !! j = Some y → R x y.
Proof.
  intros Hl. revert i j. induction Hl as [|z l Hl IH Hz]; intros i j Hij.
  { by rewrite lookup_nil. }
  destruct j as [|j]; [lia|]. destruct i as [|i]; simpl.
  - intros [= ->] Hy. eapply Forall_forall in Hz; [done|].
    by eapply list_elem_of_lookup_2.
  - apply IH. lia.
Qed.
End dispatch_facts.

(** ** Builder, dispatcher and ranker *)

Section dispatch_claims.
Local Open Scope Qc_scope.

(** C4: [process_recommendations] returns one recommendation per job of
    the list, in the order of the list and without leaving any out; its
    count and percent are what [match_skills] returns on the skill sets
    read from the seeker row and the job row, its other fields are copied
    from the two rows. Dispatch over n seekers and m jobs hence yields
    n * m recommendations, and so does the ranked output. *)
Theorem process_recommendations_cross_product :
  (∀ js_data job_data, ∃ recs,
      process_recommendations js_data job_data = Some recs ∧
      length recs = length job_data ∧
      Forall2 (λ job rec,
                 match_skills (stored_skills (SeekerRow.skills js_data))
                              (stored_skills (JobRow.required_skills job))
                 = Some (matching_skill_count rec, matching_skill_percent rec) ∧
                 jobseeker_id rec = SeekerRow.id js_data ∧
                 jobseeker_name rec = SeekerRow.name js_data ∧
                 job_id rec = JobRow.id job ∧
                 job_title rec = JobRow.title job)
              job_data recs) ∧
  (∀ sched conn,
      sched ≡ₚ seq 0 (length (jobseekers_table conn)) →
      ∃ recs out,
        dispatch sched conn = Some recs ∧
        generate_recommendation_parallel sched conn = Some out ∧
        length recs
          = (length (jobseekers_table conn) * length (jobs_table conn))%nat ∧
        length out
          = (length (jobseekers_table conn) * length (jobs_table conn))%nat).
Proof.
  split.
  - intros js_data job_data. eexists. split; [apply process_recommendations_eq|].
    split; [by rewrite length_fmap|].
    apply Forall2_fmap_r, Forall_Forall2_diag, Forall_forall.
    intros job _. by rewrite match_skills_eq.
  - intros sched conn Hsched. eexists _, _.
    split; [by apply dispatch_eq|]. split; [by apply generate_parallel_eq|].
    split; [apply length_all_pairs|].
    erewrite Permutation_length; [apply length_all_pairs|].
    apply sorted_perm.
Qed.

Lemma process_recommendations_cross_product_witness :
  [1; 0]%nat ≡ₚ seq 0 (length (jobseekers_table sample_conn)) ∧
  ∃ recs out,
    dispatch [1; 0]%nat sample_conn = Some recs ∧
    generate_recommendation_parallel [1; 0]%nat sample_conn = Some out ∧
    length recs = 6%nat ∧ length out = 6%nat.
Proof.
  assert ([1; 0]%nat ≡ₚ seq 0 (length (jobseekers_table sample_conn)))
    as Hsched by apply perm_swap.
  split; [exact Hsched|].
  exact (proj2 process_recommendations_cross_product _ sample_conn Hsched).
Defined.

(** C2: the sequence returned by [generate_recommendation_parallel] is
    ordered by seeker id ascending, then percent descending, then job id
    ascending; in particular two recommendations of one seeker with equal
    percent stand in ascending order of job id. *)
Theorem generate_recommendation_ranked sched conn :
  sched ≡ₚ seq 0 (length (jobseekers_table conn)) →
  ∃ out,
    generate_recommendation_parallel sched conn = Some out ∧
    StronglySorted ranked_before out ∧
    ∀ i j x y,
      (i < j)%nat → out !! i = Some x → out !! j = Some y →
      jobseeker_id x = jobseeker_id y →
      matching_skill_percent x = matching_skill_percent y →
      (job_id x ≤ job_id y)%Z.
Proof.
  intros Hsched. eexists. split; [by apply generate_parallel_eq|].
  split; [apply ranked_sorted|].
  intros i j x y Hij Hx Hy Hid Hp.
  pose proof (StronglySorted_lookup _ _ _ _ _ _ (ranked_sorted _) Hij Hx Hy)
    as [?|[_ [Hlt|[_ ?]]]]; [lia| |done].
  rewrite Hp in Hlt. by destruct (irreflexivity Qclt _ Hlt).
Qed.

Lemma generate_recommendation_ranked_witness :
  [1; 0]%nat ≡ₚ seq 0 (length (jobseekers_table sample_conn)) ∧
  ∃ out,
    generate_recommendation_parallel [1; 0]%nat sample_conn = Some out ∧
    StronglySorted ranked_before out ∧
    ∀ i j x y,
      (i < j)%nat → out !! i = Some x → out !! j = Some y →
      jobseeker_id x = jobseeker_id y →
      matching_skill_percent x = matching_skill_percent y →
      (job_id x ≤ job_id y)%Z.
Proof.
  assert ([1; 0]%nat ≡ₚ seq 0 (length (jobseekers_table sample_conn)))
    as Hsched by apply perm_swap.
  split; [exact Hsched|].
  exact (generate_recommendation_ranked _ sample_conn Hsched).
Defined.

(** C3: whatever the order in which the workers of the pool finish,
    [generate_recommendation_parallel] returns the ranked sequence that
    the sequential map of [process_recommendations] over the seeker list
    returns, and both do return one. *)
Theorem parallel_sequential_agree sched conn :
  sched ≡ₚ seq 0 (length (jobseekers_table conn)) →
  generate_recommendation_parallel sched conn
  = generate_recommendation_sequential conn ∧
  is_Some (generate_recommendation_sequential conn).
Proof.
  intros Hsched. rewrite generate_parallel_eq, generate_sequential_eq by done.
  eauto.
Qed.

Lemma parallel_sequential_agree_witness :
  [1; 0]%nat ≡ₚ seq 0 (length (jobseekers_table sample_conn)) ∧
  generate_recommendation_parallel [1; 0]%nat sample_conn
  = generate_recommendation_sequential sample_conn ∧
  is_Some (generate_recommendation_sequential sample_conn).
Proof.
  assert ([1; 0]%nat ≡ₚ seq 0 (length (jobseekers_table sample_conn)))
    as Hsched by apply perm_swap.
  split; [exact Hsched|].
  exact (parallel_sequential_agree _ sample_conn Hsched).
Defined.

(** C8: on tables with pairwise distinct seeker ids and pairwise
    distinct job ids, listing the seekers or the jobs in another order
    gives the dispatcher the same recommendations, up to their order, and
    gives the same ranked sequence. *)
Theorem dispatch_order_independent sched sched' conn conn' :
  NoDup (SeekerRow.id <$> jobseekers_table conn) →
  NoDup (JobRow.id <$> jobs_table conn) →
  jobseekers_table conn ≡ₚ jobseekers_table conn' →
  jobs_table conn ≡ₚ jobs_table conn' →
  sched ≡ₚ seq 0 (length (jobseekers_table conn)) →
  sched' ≡ₚ seq 0 (length (jobseekers_table conn')) →
  ∃ recs recs' out,
    dispatch sched conn = Some recs ∧
    dispatch sched' conn' = Some recs' ∧
    recs ≡ₚ recs' ∧
    generate_recommendation_parallel sched conn = Some out ∧
    generate_recommendation_parallel sched' conn' = Some out.
Proof.
  intros Hs Hj Hps Hpj Hsched Hsched'. eexists _, _, _.
  split; [by apply dispatch_eq|]. split; [by apply dispatch_eq|].
  split; [by apply all_pairs_perm|]. split; [by apply generate_parallel_eq|].
  rewrite generate_parallel_eq by done. f_equal. symmetry.
  apply (sorted_perm_eq sort_key tuple_lt lexico tuple_lt_spec).
  - intros x y. by apply all_pairs_key_inj.
  - by apply all_pairs_perm.
Qed.

Lemma dispatch_order_independent_witness :
  ∃ recs recs' out,
    dispatch [1; 0]%nat sample_conn = Some recs ∧
    dispatch [0; 1]%nat sample_conn_shuffled = Some recs' ∧
    recs ≡ₚ recs' ∧
    generate_recommendation_parallel [1; 0]%nat sample_conn = Some out ∧
    generate_recommendation_parallel [0; 1]%nat sample_conn_shuffled = Some out.
Proof.
  apply (dispatch_order_independent [1; 0]%nat [0; 1]%nat
           sample_conn sample_conn_shuffled).
  - apply (bool_decide_unpack _). vm_compute. exact I.
  - apply (bool_decide_unpack _). vm_compute. exact I.
  - apply perm_swap.
  - simpl. apply perm_swap.
  - apply perm_swap.
  - reflexivity.
Defined.
End dispatch_claims.

(** ** Concrete runs *)

Example split_pieces_run :
  PyStr.split PyStr.comma "Ruby, SQL,,x" = ["Ruby"; " SQL"; ""; "x"]%string.
Proof. reflexivity. Qed.

Example split_empty_run : PyStr.split PyStr.comma "" = [""%string].
Proof. reflexivity. Qed.

Example strip_run : PyStr.strip "  Problem Solving  " = "Problem Solving"%string.
Proof. reflexivity. Qed.

Example lower_run : PyStr.lower "Problem Solving" = "problem solving"%string.
Proof. reflexivity. Qed.

Example join_run :
  PyStr.join "," ["ruby"; "sql"; "problem solving"]%string
  = "ruby,sql,problem solving"%string.
Proof. reflexivity. Qed.

(** Duplicates collapse, whatever their case and the blanks around them. *)
Example parse_skills_run :
  parse_skills "Ruby, SQL , ruby" = {[ "ruby"; "sql" ]}%string.
Proof. apply (bool_decide_unpack _). vm_compute. exact I. Qed.

(** The unit test [test_match_skills]. *)
Example test_match_skills :
  option_map (λ '(c, p), (c, this p))
    (match_skills {[ "ruby"; "sql"; "problem solving" ]}%string
                  {[ "ruby"; "sql"; "problem solving" ]}%string)
  = Some (3%Z, 100%Q).
Proof. vm_compute. reflexivity. Qed.

(** No skill in common. *)
Example match_skills_disjoint :
  option_map (λ '(c, p), (c, this p))
    (match_skills {[ "python" ]}%string {[ "ruby"; "sql" ]}%string)
  = Some (0%Z, 0%Q).
Proof. vm_compute. reflexivity. Qed.

(** The unit test [test_generate_recommendations_parralle], from the
    constructors through the storage layer to the ranked output. *)
Example test_generate_recommendations :
  option_map (map fields)
    (conn ← insert_data elements (mkDatabase [] [])
               [JobSeeker.init 1 "Alice Seeker" "Ruby, SQL, Problem Solving"]
               [Job.init 1 "Ruby Developer" "Ruby, SQL, Problem Solving"];
     generate_recommendation_parallel [0%nat] conn)
  = Some [(1%Z, "Alice Seeker"%string, 1%Z, "Ruby Developer"%string, 3%Z, 100%Q)].
Proof. vm_compute. reflexivity. Qed.

(** The ranked output on the sample tables: seekers grouped, best match
    first, ties in ascending job id. *)
Example sample_ranked :
  option_map (map fields)
    (generate_recommendation_parallel [1; 0]%nat sample_conn)
  = Some [ (1%Z, "Alice"%string, 1%Z, "Ruby Developer"%string, 3%Z, 100%Q);
           (1%Z, "Alice"%string, 2%Z, "Database Admin"%string, 1%Z, 50%Q);
           (1%Z, "Alice"%string, 3%Z, "Data Analyst"%string, 1%Z, 50%Q);
           (2%Z, "Bob"%string, 2%Z, "Database Admin"%string, 1%Z, 50%Q);
           (2%Z, "Bob"%string, 3%Z, "Data Analyst"%string, 1%Z, 50%Q);
           (2%Z, "Bob"%string, 1%Z, "Ruby Developer"%string, 1%Z, (100 # 3)%Q) ].
Proof. vm_compute. reflexivity. Qed.

(** Rows come back in ascending order of id, whatever the order of the
    lists given to [insert_data]. *)
Example insert_data_by_id :
  option_map (λ conn, (SeekerRow.id <$> jobseekers_table conn,
                       JobRow.id <$> jobs_table conn))
    (insert_data elements (mkDatabase [] []) sample_seekers sample_jobs)
  = Some ([1; 2]%Z, [1; 3]%Z).
Proof. vm_compute. reflexivity. Qed.

(** An id that 64 bits cannot hold makes [insert_data] raise. *)
Example insert_data_overflow :
  insert_data elements (mkDatabase [] [])
    [JobSeeker.init (2 ^ 63) "Alice" "Ruby"] [] = None.
Proof. vm_compute. reflexivity. Qed.

(** The percent of the source on doubles for 11 skills of 20:
    55.000000000000007. *)
Example match_skills_eleven_of_twenty :
  PrimFloat.mul (PrimFloat.div (F64.of_Z 11) (F64.of_Z 20)) 100%float
  = 0x1.b800000000001p+5%float.
Proof. vm_compute. reflexivity. Qed.

(** A pool call that a task has not finished returns nothing. *)
Example pool_unfinished :
  generate_recommendation_parallel [1%nat] sample_conn = None.
Proof. vm_compute. reflexivity. Qed.

(** * Further properties *)

(** ** Scoring *)

Section scoring_more.
Local Open Scope Qc_scope.
Implicit Types A B : gset string.

Lemma Qc_of_Z_nonneg n : (0 ≤ n)%Z → 0 ≤ Qc_of_Z n.
Proof. intros. by rewrite <-Z2Qc_inj_0, <-Z2Qc_inj_le. Qed.

Lemma ratio_mono c c' t :
  (c ≤ c')%Z → (0 < t)%Z → Qc_of_Z c / Qc_of_Z t ≤ Qc_of_Z c' / Qc_of_Z t.
Proof.
  intros Hc Ht. apply Qcmult_le_mono_nonneg_r.
  - apply Qclt_le_weak, Qcinv_pos. by apply Qc_of_Z_pos.
  - by rewrite <-Z2Qc_inj_le.
Qed.

Lemma ratio_eq_0 c t : (0 < t)%Z → Qc_of_Z c / Qc_of_Z t = 0 ↔ c = 0%Z.
Proof.
  intros Ht. assert (Qc_of_Z t ≠ 0) by (apply Qc_of_Z_nonzero; lia). split.
  - intros Hq. apply Z2Qc_inj. rewrite Z2Qc_inj_0.
    rewrite <-(Qcmult_div_r (Qc_of_Z c) (Qc_of_Z t)) by done.
    by rewrite Hq, Qcmult_0_r.
  - intros ->. rewrite Z2Qc_inj_0. apply Qcmult_0_l.
Qed.

Lemma percent_eq_0 q : q * Qc_of_Z 100 = 0 ↔ q = 0.
Proof.
  assert (Qc_of_Z 100 ≠ 0) by (by apply Qc_of_Z_nonzero). split.
  - by intros [?|?]%Qcmult_integral.
  - intros ->. apply Qcmult_0_l.
Qed.

(** Two ratios of one non-zero count agree only on equal totals. *)
Lemma ratio_same_count c t t' :
  c ≠ 0%Z → (0 < t)%Z → (0 < t')%Z →
  Qc_of_Z c / Qc_of_Z t = Qc_of_Z c / Qc_of_Z t' → t = t'.
Proof.
  intros Hc Ht Ht' Hq.
  assert (Qc_of_Z t ≠ 0) as Hnt by (apply Qc_of_Z_nonzero; lia).
  assert (Qc_of_Z t' ≠ 0) as Hnt' by (apply Qc_of_Z_nonzero; lia).
  assert (Qc_of_Z (c * t') = Qc_of_Z (c * t)) as Heq%Z2Qc_inj.
  { rewrite !Z2Qc_inj_mul.
    rewrite <-(Qcmult_div_r (Qc_of_Z c) (Qc_of_Z t)) at 1 by done.
    rewrite Hq, <-Qcmult_assoc, (Qcmult_comm _ (Qc_of_Z t')).
    rewrite (Qcmult_div_r _ _ Hnt'). apply Qcmult_comm. }
  nia.
Qed.

(** X1: the count of [match_skills] does not depend on which of the two
    sets is the seeker's; when the count is not zero, the two percents
    agree exactly when the two sets have the same size. *)
Theorem match_skills_count_symmetric A B :
  ∃ count percent percent',
    match_skills A B = Some (count, percent) ∧
    match_skills B A = Some (count, percent') ∧
    (count ≠ 0%Z → (percent = percent' ↔ size A = size B)).
Proof.
  assert (B ∩ A = A ∩ B) as Hcomm by set_solver.
  eexists _, _, _. split; [apply match_skills_eq|].
  split; [by rewrite match_skills_eq, Hcomm|].
  intros Hc.
  pose proof (len_inter_le_l A B). pose proof (len_inter_le_r A B).
  pose proof (len_nonneg (A ∩ B)).
  rewrite !decide_True by lia. split.
  - intros Hp. assert (len B = len A) as Hl; [|unfold len in Hl; lia].
    apply (ratio_same_count (len (A ∩ B))); [done|lia..|].
    assert (Qc_of_Z 100 ≠ 0) as H100 by by apply Qc_of_Z_nonzero.
    rewrite <-(Qcdiv_mult_l (_ / Qc_of_Z (len B)) _ H100), Hp.
    by rewrite Qcdiv_mult_l.
  - intros Hs. unfold len at 2 4. by rewrite Hs.
Qed.

(** X2: more seeker skills never lower the score: for [A ⊆ A'] the count
    and the percent of [A'] against [B] are at least those of [A]. *)
Theorem match_skills_mono A A' B :
  A ⊆ A' →
  ∃ count percent count' percent',
    match_skills A B = Some (count, percent) ∧
    match_skills A' B = Some (count', percent') ∧
    (count ≤ count')%Z ∧ percent ≤ percent'.
Proof.
  intros HA. eexists _, _, _, _. split; [apply match_skills_eq|].
  split; [apply match_skills_eq|].
  assert (len (A ∩ B) ≤ len (A' ∩ B))%Z as Hle.
  { unfold len. apply inj_le, subseteq_size. set_solver. }
  split; [done|]. destruct (decide (len B > 0)%Z); [|done].
  apply Qcmult_le_mono_nonneg_r; [by apply Qc_of_Z_nonneg|].
  apply ratio_mono; [done|lia].
Qed.

Lemma match_skills_mono_witness :
  ({[ "sql" ]} : gset string) ⊆ {[ "sql"; "ruby" ]}%string ∧
  ∃ count percent count' percent',
    match_skills {[ "sql" ]}%string {[ "ruby"; "sql" ]}%string
      = Some (count, percent) ∧
    match_skills {[ "sql"; "ruby" ]}%string {[ "ruby"; "sql" ]}%string
      = Some (count', percent') ∧
    (count ≤ count')%Z ∧ percent ≤ percent'.
Proof.
  assert (({[ "sql" ]} : gset string) ⊆ {[ "sql"; "ruby" ]}%string) as Hsub.
  { apply (bool_decide_unpack _). vm_compute. exact I. }
  split; [exact Hsub|].
  exact (match_skills_mono _ _ {[ "ruby"; "sql" ]}%string Hsub).
Defined.

(** X3: the percent is zero exactly when the count is zero, that is when
    the two sets share no skill; an empty required set is one such case. *)
Theorem match_skills_zero A B :
  ∃ count percent,
    match_skills A B = Some (count, percent) ∧
    (percent = Qc_of_Z 0 ↔ count = 0%Z) ∧
    (count = 0%Z ↔ A ∩ B = ∅).
Proof.
  eexists _, _. split; [apply match_skills_eq|].
  split; [|apply len_zero].
  pose proof (len_inter_le_r A B). pose proof (len_nonneg (A ∩ B)).
  destruct (decide (len B > 0)%Z).
  - rewrite Z2Qc_inj_0, percent_eq_0. apply ratio_eq_0. lia.
  - split; [lia|done].
Qed.
End scoring_more.

(** ** Normalisation *)

Section normalizer_more.
Import PyStr PyStrFacts.

Lemma split_app_comma sep a b :
  split sep (a ++ String sep b) = split sep a ++ split sep b.
Proof.
  induction a as [|c a IH]; simpl.
  - by rewrite Ascii.eqb_refl.
  - destruct (Ascii.eqb c sep); [by rewrite IH|].
    rewrite IH. pose proof (split_nonempty sep a).
    by destruct (split sep a).
Qed.

Lemma split_lower raw : split comma (lower raw) = lower <$> split comma raw.
Proof.
  induction raw as [|c raw IH]; simpl; [done|].
  rewrite lower_char_comma, IH.
  destruct (Ascii.eqb c comma); [done|].
  pose proof (split_nonempty comma raw). by destruct (split comma raw).
Qed.

Lemma stored_skills_nonempty column : stored_skills column ≠ ∅.
Proof.
  unfold stored_skills. pose proof (split_nonempty comma column).
  destruct (split comma column) as [|p ps]; [done|]. set_solver.
Qed.

Lemma len_pos_nonempty (X : gset string) : X ≠ ∅ → (1 ≤ len X)%Z.
Proof.
  intros HX. pose proof (len_nonneg X).
  destruct (decide (len X = 0%Z)) as [?%len_zero|]; [done|lia].
Qed.

(** X4: whatever the raw string, the constructors build a set with at
    least one element. *)
Theorem constructors_skills_nonempty id name raw :
  JobSeeker.skills (JobSeeker.init id name raw) ≠ ∅ ∧
  Job.required_skills (Job.init id name raw) ≠ ∅ ∧
  (1 ≤ len (parse_skills raw))%Z.
Proof.
  pose proof (parse_skills_nonempty raw).
  split_and!; [done..|by apply len_pos_nonempty].
Qed.

(** X5: every skill of a parsed set is trimmed, is in lower case and
    holds no comma. *)
Theorem parse_skills_tokens e raw :
  e ∈ parse_skills raw →
  strip e = e ∧ lower e = e ∧ contains comma e = false.
Proof.
  intros He. pose proof (parse_skills_normal e raw He) as [_ Hc].
  apply parse_skills_elem in He as (p & -> & _).
  split_and!; [|apply lower_idemp|done].
  by rewrite strip_lower, strip_idemp.
Qed.

Lemma parse_skills_tokens_witness :
  "sql"%string ∈ parse_skills " Ruby , SQL " ∧
  strip "sql" = "sql"%string ∧ lower "sql" = "sql"%string ∧
  contains comma "sql" = false.
Proof.
  assert ("sql"%string ∈ parse_skills " Ruby , SQL ") as Hin.
  { apply (bool_decide_unpack _). vm_compute. exact I. }
  split; [exact Hin|].
  exact (parse_skills_tokens "sql" " Ruby , SQL " Hin).
Defined.

(** X6: parsing two raw strings joined by a comma gives the union of
    their parsed sets, so the order of the parts does not matter, and a
    trailing comma adds the empty string to the set. *)
Theorem parse_skills_comma a b :
  parse_skills (a ++ String comma b) = parse_skills a ∪ parse_skills b ∧
  parse_skills (a ++ String comma b) = parse_skills (b ++ String comma a) ∧
  parse_skills (a ++ ",") = parse_skills a ∪ {[ ""%string ]}.
Proof.
  assert (∀ x y, parse_skills (x ++ String comma y)
                 = parse_skills x ∪ parse_skills y) as Hunion.
  { intros x y. unfold parse_skills.
    by rewrite split_app_comma, fmap_app, list_to_set_app_L. }
  split_and!; [done| |].
  - rewrite !Hunion. apply (comm_L (∪)).
  - change (a ++ ",")%string with (a ++ String comma "")%string.
    by rewrite Hunion, (parse_skills_blank "").
Qed.

(** X7: the letter case of the raw string does not matter. *)
Theorem parse_skills_case raw : parse_skills (lower raw) = parse_skills raw.
Proof.
  unfold parse_skills. rewrite split_lower, <-list_fmap_compose. f_equal.
  apply list_fmap_ext. intros _ p _. simpl.
  by rewrite strip_lower, lower_idemp.
Qed.

(** X8: a stored column never reads back as the empty set, so that
    [process_recommendations] never takes the zero branch of
    [match_skills]: each percent it returns is the count divided by the
    size of the job's set, which is at least 1, times 100. *)
Theorem process_recommendations_divides js_data job_data :
  ∃ recs,
    process_recommendations js_data job_data = Some recs ∧
    Forall2 (λ job rec,
               let total := len (stored_skills (JobRow.required_skills job)) in
               (1 ≤ total)%Z ∧
               matching_skill_percent rec
               = (Qc_of_Z (matching_skill_count rec) / Qc_of_Z total
                  * Qc_of_Z 100)%Qc)
            job_data recs.
Proof.
  eexists. split; [apply process_recommendations_eq|].
  apply Forall2_fmap_r, Forall_Forall2_diag, Forall_forall. intros job _.
  pose proof (len_pos_nonempty _ (stored_skills_nonempty (JobRow.required_skills job))).
  simpl. split; [done|]. by rewrite decide_True by lia.
Qed.
End normalizer_more.

(** ** Storage *)

Section storage_more.
Import PyStr PyStrFacts.

Lemma Z_ltb_lexico (a b : Z) : (a <? b)%Z = true ↔ lexico a b.
Proof. apply Z.ltb_lt. Qed.

(** A table is a rearrangement of the rows written to it, in ascending
    order of id. *)
Lemma by_id_perm {X} (key : X → Z) (l : list X) : sorted key Z.ltb l ≡ₚ l.
Proof. apply sorted_perm. Qed.

Lemma by_id_ascending {X} (key : X → Z) (l : list X) :
  StronglySorted (λ r r', (key r ≤ key r')%Z) (sorted key Z.ltb l).
Proof.
  eapply StronglySorted_mono;
    [|apply (sorted_sorted key Z.ltb lexico), Z_ltb_lexico].
  intros r r' Hle. unfold key_le, lexico, Z_lexico in Hle. lia.
Qed.

Lemma insert_data_Some iter conn jobseekers jobs conn' :
  insert_data iter conn jobseekers jobs = Some conn' →
  conn' = mkDatabase
            (sorted SeekerRow.id Z.ltb
               (jobseekers_table conn ++ (seeker_row iter <$> jobseekers)))
            (sorted JobRow.id Z.ltb
               (jobs_table conn ++ (job_row iter <$> jobs))) ∧
  NoDup (SeekerRow.id <$> jobseekers_table conn ++ (seeker_row iter <$> jobseekers)) ∧
  NoDup (JobRow.id <$> jobs_table conn ++ (job_row iter <$> jobs)) ∧
  Forall int64 (JobSeeker.id <$> jobseekers) ∧
  Forall int64 (Job.id <$> jobs).
Proof.
  unfold insert_data. case_decide as Hnd; [|done]. intros [= <-].
  by destruct Hnd as (? & ? & ? & ?).
Qed.

Lemma seeker_row_ids iter (jobseekers : list JobSeeker.t) :
  SeekerRow.id <$> (seeker_row iter <$> jobseekers) = JobSeeker.id <$> jobseekers.
Proof. by rewrite <-list_fmap_compose. Qed.

Lemma job_row_ids iter (jobs : list Job.t) :
  JobRow.id <$> (job_row iter <$> jobs) = Job.id <$> jobs.
Proof. by rewrite <-list_fmap_compose. Qed.

(** A set that a constructor built is read back from its column. *)
Lemma stored_render iter raw :
  iteration_order iter →
  stored_skills (render_skills (iter (parse_skills raw))) = parse_skills raw.
Proof.
  intros Hiter.
  destruct (render_read_back raw (iter (parse_skills raw)) (Hiter _))
    as (Hsplit & Hset & _).
  unfold stored_skills. by rewrite Hsplit.
Qed.

Lemma seeker_row_read_back iter js :
  iteration_order iter → seeker_constructed js →
  stored_skills (SeekerRow.skills (seeker_row iter js)) = JobSeeker.skills js.
Proof. intros Hiter (id & name & raw & ->). by apply stored_render. Qed.

Lemma job_row_read_back iter job :
  iteration_order iter → job_constructed job →
  stored_skills (JobRow.required_skills (job_row iter job)) = Job.required_skills job.
Proof. intros Hiter (id & name & raw & ->). by apply stored_render. Qed.

Lemma pair_recommendation_rows iter js job :
  iteration_order iter → seeker_constructed js → job_constructed job →
  pair_recommendation (seeker_row iter js) (job_row iter job)
  = entity_recommendation js job.
Proof.
  intros Hiter Hjs Hjob. unfold pair_recommendation, entity_recommendation.
  by rewrite seeker_row_read_back, job_row_read_back.
Qed.

Lemma all_pairs_rows iter jobseekers jobs :
  iteration_order iter →
  Forall seeker_constructed jobseekers → Forall job_constructed jobs →
  all_pairs (seeker_row iter <$> jobseekers) (job_row iter <$> jobs)
  = entity_pairs jobseekers jobs.
Proof.
  intros Hiter Hs Hj. unfold all_pairs, entity_pairs.
  rewrite <-list_fmap_compose. f_equal. apply Forall_fmap_ext.
  eapply Forall_impl; [done|]. intros js Hjs. simpl.
  rewrite <-list_fmap_compose. apply Forall_fmap_ext.
  eapply Forall_impl; [done|]. intros job Hjob. simpl.
  by apply pair_recommendation_rows.
Qed.

Lemma iteration_order_elements : iteration_order elements.
Proof. by intros X. Qed.

Lemma iteration_order_elements_rev : iteration_order elements_rev.
Proof. intros X. unfold elements_rev. by rewrite reverse_Permutation. Qed.

(** X9: after [insert_data] each table holds its former rows and one
    row for each object, in ascending order of id; the ids of the objects
    fit in 64 bits; for an object that its constructor built, whatever the
    order in which its set is joined, the stored column reads back as the
    set of the object. *)
Theorem insert_data_read_back iter conn jobseekers jobs conn' :
  iteration_order iter →
  Forall seeker_constructed jobseekers → Forall job_constructed jobs →
  insert_data iter conn jobseekers jobs = Some conn' →
  ∃ seeker_rows job_rows,
    jobseekers_table conn' ≡ₚ jobseekers_table conn ++ seeker_rows ∧
    jobs_table conn' ≡ₚ jobs_table conn ++ job_rows ∧
    StronglySorted (λ r r', SeekerRow.id r ≤ SeekerRow.id r')
                   (jobseekers_table conn') ∧
    StronglySorted (λ r r', JobRow.id r ≤ JobRow.id r') (jobs_table conn') ∧
    Forall2 (λ js row,
               int64 (JobSeeker.id js) ∧
               SeekerRow.id row = JobSeeker.id js ∧
               SeekerRow.name row = JobSeeker.name js ∧
               stored_skills (SeekerRow.skills row) = JobSeeker.skills js)
            jobseekers seeker_rows ∧
    Forall2 (λ job row,
               int64 (Job.id job) ∧
               JobRow.id row = Job.id job ∧
               JobRow.title row = Job.title job ∧
               stored_skills (JobRow.required_skills row) = Job.required_skills job)
            jobs job_rows.
Proof.
  intros Hiter Hs Hj (-> & _ & _ & Hs64 & Hj64)%insert_data_Some.
  exists (seeker_row iter <$> jobseekers), (job_row iter <$> jobs). simpl.
  split; [apply by_id_perm|]. split; [apply by_id_perm|].
  split; [apply by_id_ascending|]. split; [apply by_id_ascending|].
  rewrite Forall_fmap in Hs64. rewrite Forall_fmap in Hj64. split.
  - apply Forall2_fmap_r, Forall_Forall2_diag, Forall_forall. intros js Hin.
    pose proof (proj1 (Forall_forall _ _) Hs js Hin).
    pose proof (proj1 (Forall_forall _ _) Hs64 js Hin).
    split_and!; [done..|by apply seeker_row_read_back].
  - apply Forall2_fmap_r, Forall_Forall2_diag, Forall_forall. intros job Hin.
    pose proof (proj1 (Forall_forall _ _) Hj job Hin).
    pose proof (proj1 (Forall_forall _ _) Hj64 job Hin).
    split_and!; [done..|by apply job_row_read_back].
Qed.
End storage_more.

Section pipeline_more.

Lemma entity_recommendation_scores js job :
  match_skills (JobSeeker.skills js) (Job.required_skills job)
  = Some (matching_skill_count (entity_recommendation js job),
          matching_skill_percent (entity_recommendation js job)).
Proof. apply match_skills_eq. Qed.

Lemma elem_of_entity_pairs x (jobseekers : list JobSeeker.t) (jobs : list Job.t) :
  x ∈ entity_pairs jobseekers jobs ↔
  ∃ js job, js ∈ jobseekers ∧ job ∈ jobs ∧ x = entity_recommendation js job.
Proof.
  unfold entity_pairs. induction jobseekers as [|js jobseekers IH].
  { split; [by intros ?%elem_of_nil|]. by intros (? & ? & ?%elem_of_nil & _). }
  rewrite fmap_cons. simpl. rewrite elem_of_app, IH, list_elem_of_fmap. split.
  - intros [(job & -> & ?)|(js' & job & ? & ? & ->)].
    + exists js, job. split_and!; [left|done..].
    + exists js', job. split_and!; [by right|done..].
  - intros (js' & job & [->|?]%elem_of_cons & ? & ->); [left|right]; eauto.
Qed.

(** From the empty tables, the ranked output is the sort of the scores of
    the objects. *)
Lemma generate_entities_eq iter sched jobseekers jobs conn :
  iteration_order iter →
  Forall seeker_constructed jobseekers → Forall job_constructed jobs →
  insert_data iter (mkDatabase [] []) jobseekers jobs = Some conn →
  sched ≡ₚ seq 0 (length jobseekers) →
  generate_recommendation_parallel sched conn
  = Some (sorted sort_key tuple_lt (entity_pairs jobseekers jobs)).
Proof.
  intros Hiter Hs Hj (-> & Hnd & Hnd' & _)%insert_data_Some Hsched.
  simpl in Hnd, Hnd'.
  rewrite generate_parallel_eq
    by (simpl; by rewrite by_id_perm, length_fmap).
  simpl. f_equal. rewrite <-(all_pairs_rows iter) by done.
  apply (sorted_perm_eq sort_key tuple_lt lexico tuple_lt_spec).
  - intros x y. apply all_pairs_key_inj; by rewrite by_id_perm.
  - apply all_pairs_perm; apply by_id_perm.
Qed.

(** X10: the storage layer does not change the scores. For objects that
    the constructors built, inserted into empty tables, the output of
    [generate_recommendation_parallel] holds, up to its order, one entry
    for each pair of a seeker object and a job object: the ids, the name
    and the title of the two objects, and the count and percent that
    [match_skills] returns on their two sets. *)
Theorem generate_scores_entities iter sched jobseekers jobs conn :
  iteration_order iter →
  Forall seeker_constructed jobseekers → Forall job_constructed jobs →
  insert_data iter (mkDatabase [] []) jobseekers jobs = Some conn →
  sched ≡ₚ seq 0 (length jobseekers) →
  ∃ out,
    generate_recommendation_parallel sched conn = Some out ∧
    out ≡ₚ entity_pairs jobseekers jobs ∧
    ∀ rec, rec ∈ out ↔
      ∃ js job, js ∈ jobseekers ∧ job ∈ jobs ∧
        jobseeker_id rec = JobSeeker.id js ∧
        jobseeker_name rec = JobSeeker.name js ∧
        job_id rec = Job.id job ∧
        job_title rec = Job.title job ∧
        match_skills (JobSeeker.skills js) (Job.required_skills job)
        = Some (matching_skill_count rec, matching_skill_percent rec).
Proof.
  intros Hiter Hs Hj Hins Hsched. eexists.
  split; [by eapply generate_entities_eq|].
  assert (sorted sort_key tuple_lt (entity_pairs jobseekers jobs)
          ≡ₚ entity_pairs jobseekers jobs) as Hperm.
  { apply (sorted_perm sort_key tuple_lt). }
  split; [done|]. intros rec. rewrite Hperm, elem_of_entity_pairs. split.
  - intros (js & job & ? & ? & ->). exists js, job.
    split_and!; [done..|apply entity_recommendation_scores].
  - intros (js & job & ? & ? & Hid & Hname & Hid' & Htitle & Hscore).
    exists js, job. split_and!; [done..|].
    rewrite entity_recommendation_scores in Hscore.
    destruct rec; simpl in *. by simplify_eq.
Qed.

Lemma generate_scores_entities_witness :
  ∃ out,
    generate_recommendation_parallel [1; 0]%nat
      (mkDatabase (seeker_row elements_rev <$> reverse sample_seekers)
                  (job_row elements_rev <$> reverse sample_jobs)) = Some out ∧
    out ≡ₚ entity_pairs sample_seekers sample_jobs ∧
    ∀ rec, rec ∈ out ↔
      ∃ js job, js ∈ sample_seekers ∧ job ∈ sample_jobs ∧
        jobseeker_id rec = JobSeeker.id js ∧
        jobseeker_name rec = JobSeeker.name js ∧
        job_id rec = Job.id job ∧
        job_title rec = Job.title job ∧
        match_skills (JobSeeker.skills js) (Job.required_skills job)
        = Some (matching_skill_count rec, matching_skill_percent rec).
Proof.
  apply (generate_scores_entities elements_rev [1; 0]%nat
           sample_seekers sample_jobs).
  - apply iteration_order_elements_rev.
  - repeat constructor; by eexists _, _, _.
  - repeat constructor; by eexists _, _, _.
  - vm_compute. reflexivity.
  - apply perm_swap.
Defined.
End pipeline_more.

Section storage_claims_more.

Lemma insert_data_read_back_witness :
  ∃ seeker_rows job_rows,
    seeker_row elements_rev <$> reverse sample_seekers ≡ₚ [] ++ seeker_rows ∧
    job_row elements_rev <$> reverse sample_jobs ≡ₚ [] ++ job_rows ∧
    StronglySorted (λ r r', SeekerRow.id r ≤ SeekerRow.id r')
                   (seeker_row elements_rev <$> reverse sample_seekers) ∧
    StronglySorted (λ r r', JobRow.id r ≤ JobRow.id r')
                   (job_row elements_rev <$> reverse sample_jobs) ∧
    Forall2 (λ js row,
               int64 (JobSeeker.id js) ∧
               SeekerRow.id row = JobSeeker.id js ∧
               SeekerRow.name row = JobSeeker.name js ∧
               stored_skills (SeekerRow.skills row) = JobSeeker.skills js)
            sample_seekers seeker_rows ∧
    Forall2 (λ job row,
               int64 (Job.id job) ∧
               JobRow.id row = Job.id job ∧
               JobRow.title row = Job.title job ∧
               stored_skills (JobRow.required_skills row) = Job.required_skills job)
            sample_jobs job_rows.
Proof.
  assert (Forall seeker_constructed sample_seekers) as Hs
    by (repeat constructor; by eexists _, _, _).
  assert (Forall job_constructed sample_jobs) as Hj
    by (repeat constructor; by eexists _, _, _).
  assert (insert_data elements_rev (mkDatabase [] []) sample_seekers sample_jobs
          = Some (mkDatabase (seeker_row elements_rev <$> reverse sample_seekers)
                             (job_row elements_rev <$> reverse sample_jobs))) as Hins
    by (vm_compute; reflexivity).
  exact (insert_data_read_back elements_rev (mkDatabase [] [])
           sample_seekers sample_jobs _
           iteration_order_elements_rev Hs Hj Hins).
Defined.

(** X11: the ranked output does not depend on the order in which Python
    iterates the skill sets when [insert_data] joins them, on the order
    of the objects in the lists given to [insert_data], nor on the order
    in which the pool finishes its tasks. *)
Theorem pipeline_order_independent iter iter' sched sched'
    jobseekers jobseekers' jobs jobs' conn conn' :
  iteration_order iter → iteration_order iter' →
  Forall seeker_constructed jobseekers → Forall job_constructed jobs →
  jobseekers ≡ₚ jobseekers' → jobs ≡ₚ jobs' →
  insert_data iter (mkDatabase [] []) jobseekers jobs = Some conn →
  insert_data iter' (mkDatabase [] []) jobseekers' jobs' = Some conn' →
  sched ≡ₚ seq 0 (length jobseekers) →
  sched' ≡ₚ seq 0 (length jobseekers') →
  generate_recommendation_parallel sched conn
  = generate_recommendation_parallel sched' conn' ∧
  is_Some (generate_recommendation_parallel sched conn).
Proof.
  intros Hiter Hiter' Hs Hj Hps Hpj Hins Hins' Hsched Hsched'.
  assert (Forall seeker_constructed jobseekers') as Hs' by by rewrite <-Hps.
  assert (Forall job_constructed jobs') as Hj' by by rewrite <-Hpj.
  rewrite (generate_entities_eq iter sched jobseekers jobs conn) by done.
  rewrite (generate_entities_eq iter' sched' jobseekers' jobs' conn') by done.
  split; [|eauto]. f_equal.
  apply insert_data_Some in Hins as (-> & Hnd & Hnd' & _). simpl in Hnd, Hnd'.
  rewrite seeker_row_ids in Hnd. rewrite job_row_ids in Hnd'.
  rewrite <-!(all_pairs_rows elements) by (done || apply iteration_order_elements).
  apply (sorted_perm_eq sort_key tuple_lt lexico tuple_lt_spec).
  - intros x y. apply all_pairs_key_inj; by rewrite ?seeker_row_ids, ?job_row_ids.
  - apply all_pairs_perm; by apply fmap_Permutation.
Qed.

Lemma pipeline_order_independent_witness :
  generate_recommendation_parallel [1; 0]%nat
    (mkDatabase (seeker_row elements <$> reverse sample_seekers)
                (job_row elements <$> reverse sample_jobs))
  = generate_recommendation_parallel [0; 1]%nat
      (mkDatabase (seeker_row elements_rev <$> reverse sample_seekers)
                  (job_row elements_rev <$> reverse sample_jobs)) ∧
  is_Some (generate_recommendation_parallel [1; 0]%nat
             (mkDatabase (seeker_row elements <$> reverse sample_seekers)
                         (job_row elements <$> reverse sample_jobs))).
Proof.
  apply (pipeline_order_independent elements elements_rev
           [1; 0]%nat [0; 1]%nat
           sample_seekers (reverse sample_seekers)
           sample_jobs (reverse sample_jobs)).
  - apply iteration_order_elements.
  - apply iteration_order_elements_rev.
  - repeat constructor; by eexists _, _, _.
  - repeat constructor; by eexists _, _, _.
  - apply perm_swap.
  - apply perm_swap.
  - vm_compute. reflexivity.
  - vm_compute. reflexivity.
  - apply perm_swap.
  - reflexivity.
Defined.

(** X12: the ids are primary keys: once [insert_data] has stored a
    non-empty batch, storing the same batch again raises and stores
    nothing. *)
Theorem insert_data_twice iter conn jobseekers jobs conn' :
  insert_data iter conn jobseekers jobs = Some conn' →
  jobseekers ≠ [] ∨ jobs ≠ [] →
  insert_data iter conn' jobseekers jobs = None.
Proof.
  intros (-> & _)%insert_data_Some Hne. unfold insert_data.
  case_decide as Hnd; [exfalso|done]. destruct Hnd as (_ & _ & Hs & Hj).
  simpl in Hs, Hj.
  rewrite fmap_app in Hs. rewrite fmap_app in Hj.
  apply NoDup_app in Hs as (_ & Hs & _). apply NoDup_app in Hj as (_ & Hj & _).
  destruct Hne as [Hne|Hne].
  - destruct jobseekers as [|js jobseekers]; [done|].
    apply (Hs (JobSeeker.id js)); [|left].
    rewrite by_id_perm, fmap_app. apply elem_of_app. right. left.
  - destruct jobs as [|job jobs]; [done|].
    apply (Hj (Job.id job)); [|left].
    rewrite by_id_perm, fmap_app. apply elem_of_app. right. left.
Qed.

Lemma insert_data_twice_witness :
  insert_data elements
    (mkDatabase (seeker_row elements <$> reverse sample_seekers)
                (job_row elements <$> reverse sample_jobs))
    sample_seekers sample_jobs = None.
Proof.
  apply (insert_data_twice elements (mkDatabase [] [])).
  - vm_compute. reflexivity.
  - left. discriminate.
Defined.
End storage_claims_more.

(** ** Ranked output *)

Section ranking_more.

Lemma ranked_before_id x y : ranked_before x y → jobseeker_id x ≤ jobseeker_id y.
Proof. intros [?|[? _]]; lia. Qed.

Lemma pair_ids_NoDup (jobseekers : list SeekerRow.t) (jobs : list JobRow.t) :
  NoDup (SeekerRow.id <$> jobseekers) → NoDup (JobRow.id <$> jobs) →
  NoDup (pair_ids <$> all_pairs jobseekers jobs).
Proof.
  intros Hs Hj. induction jobseekers as [|js jobseekers IH]; [constructor|].
  rewrite fmap_cons in Hs. apply NoDup_cons in Hs as [Hjs Hs].
  rewrite all_pairs_cons, fmap_app. apply NoDup_app. split_and!; [| |by apply IH].
  - rewrite <-list_fmap_compose. apply NoDup_fmap_2_strong.
    + intros job job' Hin Hin' [= Hid].
      by apply (NoDup_fmap_elem_inj JobRow.id jobs).
    + by eapply NoDup_fmap_1.
  - intros ids (x & -> & (job & -> & _)%list_elem_of_fmap)%list_elem_of_fmap
      (y & Hy & (js' & job' & Hjs' & _ & ->)%elem_of_all_pairs)%list_elem_of_fmap.
    injection Hy as Hid _. apply Hjs. rewrite Hid.
    by apply list_elem_of_fmap_2.
Qed.

(** X13: sorting neither drops nor repeats an entry: the ranked output
    is a rearrangement of what the dispatcher returned, one entry for
    each pair of a seeker row and a job row. *)
Theorem generate_permutes_dispatch sched conn :
  sched ≡ₚ seq 0 (length (jobseekers_table conn)) →
  ∃ recs out,
    dispatch sched conn = Some recs ∧
    generate_recommendation_parallel sched conn = Some out ∧
    out ≡ₚ recs ∧
    ∀ rec, rec ∈ out ↔
      ∃ js job, js ∈ jobseekers_table conn ∧ job ∈ jobs_table conn ∧
        process_recommendations js [job] = Some [rec].
Proof.
  intros Hsched. eexists _, _. split; [by apply dispatch_eq|].
  split; [by apply generate_parallel_eq|].
  assert (sorted sort_key tuple_lt
            (all_pairs (jobseekers_table conn) (jobs_table conn))
          ≡ₚ all_pairs (jobseekers_table conn) (jobs_table conn)) as Hperm.
  { apply (sorted_perm sort_key tuple_lt). }
  split; [done|]. intros rec. rewrite Hperm, elem_of_all_pairs.
  split; intros (js & job & ? & ? & Hrec); exists js, job; split_and!; try done.
  - by rewrite process_recommendations_eq, Hrec.
  - rewrite process_recommendations_eq in Hrec. by injection Hrec.
Qed.

Lemma generate_permutes_dispatch_witness :
  ∃ recs out,
    dispatch [1; 0]%nat sample_conn = Some recs ∧
    generate_recommendation_parallel [1; 0]%nat sample_conn = Some out ∧
    out ≡ₚ recs ∧
    ∀ rec, rec ∈ out ↔
      ∃ js job, js ∈ jobseekers_table sample_conn ∧
        job ∈ jobs_table sample_conn ∧
        process_recommendations js [job] = Some [rec].
Proof.
  apply (generate_permutes_dispatch [1; 0]%nat sample_conn).
  apply perm_swap.
Defined.

(** X14: the recommendations of one seeker id stand together in the
    output: an entry between two entries of one seeker id has that
    seeker id too. *)
Theorem generate_groups_by_seeker sched conn :
  sched ≡ₚ seq 0 (length (jobseekers_table conn)) →
  ∃ out,
    generate_recommendation_parallel sched conn = Some out ∧
    ∀ i j k x y z,
      (i < j < k)%nat →
      out !! i = Some x → out !! j = Some y → out !! k = Some z →
      jobseeker_id x = jobseeker_id z →
      jobseeker_id y = jobseeker_id x.
Proof.
  intros Hsched. eexists. split; [by apply generate_parallel_eq|].
  intros i j k x y z [Hij Hjk] Hx Hy Hz Hid.
  pose proof (StronglySorted_lookup _ _ _ _ _ _ (ranked_sorted _) Hij Hx Hy)
    as Hxy%ranked_before_id.
  pose proof (StronglySorted_lookup _ _ _ _ _ _ (ranked_sorted _) Hjk Hy Hz)
    as Hyz%ranked_before_id.
  lia.
Qed.

Lemma generate_groups_by_seeker_witness :
  ∃ out,
    generate_recommendation_parallel [1; 0]%nat sample_conn = Some out ∧
    ∀ i j k x y z,
      (i < j < k)%nat →
      out !! i = Some x → out !! j = Some y → out !! k = Some z →
      jobseeker_id x = jobseeker_id z →
      jobseeker_id y = jobseeker_id x.
Proof.
  apply (generate_groups_by_seeker [1; 0]%nat sample_conn).
  apply perm_swap.
Defined.

(** X15: on tables with pairwise distinct seeker ids and pairwise
    distinct job ids, no pair of a seeker id and a job id occurs twice in
    the output. *)
Theorem generate_pairs_once sched conn :
  NoDup (SeekerRow.id <$> jobseekers_table conn) →
  NoDup (JobRow.id <$> jobs_table conn) →
  sched ≡ₚ seq 0 (length (jobseekers_table conn)) →
  ∃ out,
    generate_recommendation_parallel sched conn = Some out ∧
    NoDup (pair_ids <$> out).
Proof.
  intros Hs Hj Hsched. eexists. split; [by apply generate_parallel_eq|].
  assert (sorted sort_key tuple_lt
            (all_pairs (jobseekers_table conn) (jobs_table conn))
          ≡ₚ all_pairs (jobseekers_table conn) (jobs_table conn)) as ->.
  { apply (sorted_perm sort_key tuple_lt). }
  by apply pair_ids_NoDup.
Qed.

Lemma generate_pairs_once_witness :
  ∃ out,
    generate_recommendation_parallel [1; 0]%nat sample_conn = Some out ∧
    NoDup (pair_ids <$> out).
Proof.
  apply (generate_pairs_once [1; 0]%nat sample_conn).
  - apply (bool_decide_unpack _). vm_compute. exact I.
  - apply (bool_decide_unpack _). vm_compute. exact I.
  - apply perm_swap.
Defined.
End ranking_more.

Section scoring_irrelevant.
Implicit Types A B C : gset string.

(** X16: skills that the job does not require do not count: adding to
    the seeker's set skills outside the required set leaves the result of
    [match_skills] unchanged. *)
Theorem match_skills_irrelevant A B C :
  C ∩ B = ∅ → match_skills (A ∪ C) B = match_skills A B.
Proof.
  intros HC. rewrite !match_skills_eq.
  replace ((A ∪ C) ∩ B) with (A ∩ B) by set_solver. done.
Qed.

Lemma match_skills_irrelevant_witness :
  match_skills ({[ "sql" ]} ∪ {[ "python" ]})%string {[ "ruby"; "sql" ]}%string
  = match_skills {[ "sql" ]}%string {[ "ruby"; "sql" ]}%string.
Proof.
  apply (match_skills_irrelevant {[ "sql" ]}%string {[ "ruby"; "sql" ]}%string
           {[ "python" ]}%string).
  apply (bool_decide_unpack _). vm_compute. exact I.
Defined.
End scoring_irrelevant.
